(** * Strokes-gained engine of sg-tracker: model and properties

    Shallow embedding of
      - [src/lib/expectedStrokes.ts]  (baseline table, [interpolate],
        [getExpectedStrokes], [baselineIsComplete]),
      - the strokes-gained module, found after the types in
        [src/types/golf.ts]           ([categorizeShot],
        [calculateStrokesGained]),
      - the dashboard page            ([sumTotals], [aggregate]),
      - the round summary page        ([totals], [weakness], [keyInsight],
        [totalStrokes], [totalPenalties], [adjustedScore]),
      - the round page                ([getSortedShotsForHole],
        [isHoleFinished], [getResumeHole], [isHoleComplete]),
      - the storage module, found after the estimator in
        [src/lib/expectedStrokes.ts]  ([loadRounds], [persistRounds],
        [saveRound], [updateRound], [getRound], [addShot],
        [undoLastShot], [deleteRound], with the browser store as explicit
        state).

    Number model.  A JavaScript [number] that the code only ever reads
    after [Number.isFinite], or that the data model fixes to a finite
    value (control points, stroke counts), is an exact rational [Q]:
    the arithmetic below is the real-number reading of the source, without
    the rounding error of IEEE doubles.  Distances, which the code tests
    with [Number.isFinite], carry the three non-finite values as well, and
    the one product that can leave the range of a double (the conversion
    of a stored distance to feet) overflows to an infinity.  Comparisons,
    branches and the selection of values are those of the code; a sum or a
    rounded value can differ from the binary64 one in the last place, and
    where the exact value is a tie the code may land on the other
    neighbour.  The sample shots that witness a rounding are chosen so
    that every intermediate value is the same in binary64. *)

From Stdlib Require Import String QArith Qround ZArith List Bool Lia Lqa.
From Stdlib Require Import Permutation.
Import ListNotations.

Local Open Scope Q_scope.

(** ** Data model ([src/types/golf.ts]) *)

Inductive Lie : Type :=
  | TEE | FAIRWAY | ROUGH | BUNKER | RECOVERY | GREEN | FRINGE.

Definition Lie_eqb (a b : Lie) : bool :=
  match a, b with
  | TEE, TEE | FAIRWAY, FAIRWAY | ROUGH, ROUGH | BUNKER, BUNKER
  | RECOVERY, RECOVERY | GREEN, GREEN | FRINGE, FRINGE => true
  | _, _ => false
  end.

(** A JavaScript number: a finite value, or one of the non-finite ones. *)
Inductive number : Type :=
  | Fin (q : Q)
  | PosInf
  | NegInf
  | NaN.

(** [Number.isFinite]. *)
Definition Number_isFinite (x : number) : bool :=
  match x with Fin _ => true | _ => false end.

(** JavaScript [x <= y]: false as soon as one side is NaN. *)
Definition num_leb (x y : number) : bool :=
  match x, y with
  | NaN, _ | _, NaN => false
  | Fin a, Fin b => Qle_bool a b
  | NegInf, _ => true
  | _, PosInf => true
  | _, _ => false
  end.

(** JavaScript [x === y] on numbers: NaN is equal to nothing. *)
Definition num_eqb (x y : number) : bool :=
  match x, y with
  | Fin a, Fin b => Qeq_bool a b
  | PosInf, PosInf | NegInf, NegInf => true
  | _, _ => false
  end.

Record Shot : Type := mkShot {
  holeNumber : Z;
  shotNumber : Z;
  startLie : Lie;
  startDistance : number;
  endLie : Lie;
  endDistance : number;
  penaltyStrokes : Q;
  putts : option Q          (* [putts?: number]; [None] when absent *)
}.

(** ** Baseline table ([src/lib/expectedStrokes.ts]) *)

Definition Table : Type := list (Q * Q).

(** [Record<Lie, Table>]; [None] is a curve that is missing at run time
    (the [!points] test of the source). *)
Definition Baseline : Type := Lie -> option Table.

Module Curves.

Definition TEE : Table :=
  [ (100, 2.92); (120, 2.99); (140, 2.97); (160, 2.99); (180, 3.05);
    (200, 3.12); (220, 3.17); (240, 3.25); (260, 3.45); (280, 3.65);
    (300, 3.71); (320, 3.79); (340, 3.86); (360, 3.92); (380, 3.96);
    (400, 3.99); (420, 4.02); (440, 4.08); (460, 4.17); (480, 4.28);
    (500, 4.41); (520, 4.54); (540, 4.65); (560, 4.74); (580, 4.79);
    (600, 4.82) ].

Definition FAIRWAY : Table :=
  [ (20, 2.4); (40, 2.6); (60, 2.7); (80, 2.75); (100, 2.8);
    (120, 2.85); (140, 2.91); (160, 2.98); (180, 3.08); (200, 3.19);
    (220, 3.32); (240, 3.45); (260, 3.58); (280, 3.69); (300, 3.78);
    (320, 3.84); (340, 3.88); (360, 3.95); (380, 4.03); (400, 4.11);
    (420, 4.15); (440, 4.2); (460, 4.29); (480, 4.4); (500, 4.53);
    (520, 4.66); (540, 4.78); (560, 4.86); (580, 4.91); (600, 4.94) ].

Definition ROUGH : Table :=
  [ (20, 2.59); (40, 2.78); (60, 2.91); (80, 2.96); (100, 3.02);
    (120, 3.08); (140, 3.15); (160, 3.23); (180, 3.31); (200, 3.42);
    (220, 3.53); (240, 3.64); (260, 3.74); (280, 3.83); (300, 3.9);
    (320, 3.95); (340, 4.02); (360, 4.11); (380, 4.21); (400, 4.3);
    (420, 4.34); (440, 4.39); (460, 4.48); (480, 4.59); (500, 4.72);
    (520, 4.85); (540, 4.97); (560, 5.05); (580, 5.1); (600, 5.13) ].

Definition BUNKER : Table :=
  [ (20, 2.53); (40, 2.82); (60, 3.15); (80, 3.24); (100, 3.23);
    (120, 3.21); (140, 3.22); (160, 3.28); (180, 3.4); (200, 3.55);
    (220, 3.7); (240, 3.84); (260, 3.93); (280, 4.0); (300, 4.04);
    (320, 4.12); (340, 4.26); (360, 4.41); (380, 4.55); (400, 4.69);
    (420, 4.73); (440, 4.78); (460, 4.87); (480, 4.98); (500, 5.11);
    (520, 5.24); (540, 5.36); (560, 5.44); (580, 5.49); (600, 5.52) ].

Definition RECOVERY : Table :=
  [ (100, 3.8); (120, 3.78); (140, 3.8); (160, 3.81); (180, 3.82);
    (200, 3.87); (220, 3.92); (240, 3.97); (260, 4.03); (280, 4.1);
    (300, 4.2); (320, 4.31); (340, 4.44); (360, 4.56); (380, 4.66);
    (400, 4.75); (420, 4.79); (440, 4.84); (460, 4.93); (480, 5.04);
    (500, 5.17); (520, 5.3); (540, 5.42); (560, 5.5); (580, 5.55);
    (600, 5.58) ].

Definition FRINGE : Table := [].

Definition GREEN : Table :=
  [ (3, 1.04); (4, 1.13); (5, 1.23); (6, 1.34); (7, 1.42); (8, 1.5);
    (9, 1.56); (10, 1.61); (15, 1.78); (20, 1.87); (30, 1.98);
    (40, 2.06); (50, 2.14); (60, 2.21); (90, 2.4) ].

End Curves.

Definition PGA_BASELINE : Baseline := fun lie =>
  match lie with
  | TEE => Some Curves.TEE
  | FAIRWAY => Some Curves.FAIRWAY
  | ROUGH => Some Curves.ROUGH
  | BUNKER => Some Curves.BUNKER
  | RECOVERY => Some Curves.RECOVERY
  | FRINGE => Some Curves.FRINGE
  | GREEN => Some Curves.GREEN
  end.

(** [!points || points.length === 0]. *)
Definition curve_unusable (c : option Table) : bool :=
  match c with
  | None => true
  | Some points => (length points =? 0)%nat
  end.

(** [baselineIsComplete], over the table it reads. *)
Definition baselineIsComplete (B : Baseline) : bool :=
  negb (curve_unusable (B TEE)) &&
  negb (curve_unusable (B FAIRWAY)) &&
  negb (curve_unusable (B ROUGH)) &&
  negb (curve_unusable (B BUNKER)) &&
  negb (curve_unusable (B RECOVERY)) &&
  negb (curve_unusable (B GREEN)).

(** ** Interpolation *)

(** The segment formula [s0 + t * (s1 - s0)] with
    [t = (distance - d0) / (d1 - d0)]. *)
Definition lerp (p0 p1 : Q * Q) (distance : Q) : Q :=
  let '(d0, s0) := p0 in
  let '(d1, s1) := p1 in
  let t := (distance - d0) / (d1 - d0) in
  s0 + t * (s1 - s0).

(** [distance >= d0 && distance <= d1]. *)
Definition brackets (p0 p1 : Q * Q) (distance : Q) : bool :=
  Qle_bool (fst p0) distance && Qle_bool distance (fst p1).

(** The [for] loop of [interpolate]: pairs [points[i], points[i+1]] in
    increasing [i]; the first bracketing pair returns.  [None] is the loop
    running to its end. *)
Fixpoint scan (points : Table) (distance : Q) : option Q :=
  match points with
  | p0 :: ((p1 :: _) as rest) =>
      if brackets p0 p1 distance then Some (lerp p0 p1 distance)
      else scan rest distance
  | _ => None
  end.

(** [interpolate(points, distance)].  [None] is the TypeError of reading
    [points[0][0]] on an empty table; both callers test the length first. *)
Definition interpolate (points : Table) (distance : Q) : option Q :=
  match points with
  | [] => None
  | first :: _ =>
      if Qle_bool distance (fst first) then Some (snd first)
      else
        let last := List.last points first in
        if Qle_bool (fst last) distance then Some (snd last)
        else
          match scan points distance with
          | Some v => Some v
          | None => Some (snd last)
          end
  end.

Definition FEET_PER_METER : Q := 3.28084.
Definition METERS_PER_YARD : Q := 0.9144.

(** [getExpectedStrokes(lie, distanceM)]; [None] is [null].  The first
    test is [!Number.isFinite(distanceM) || distanceM <= 0]. *)
Definition getExpectedStrokes (B : Baseline) (lie : Lie) (distanceM : number)
  : option Q :=
  match distanceM with
  | Fin d =>
      if Qle_bool d 0 then Some 0
      else if Lie_eqb lie GREEN then
        match B GREEN with
        | None => None
        | Some greenPoints =>
            if (length greenPoints =? 0)%nat then None
            else interpolate greenPoints (d * FEET_PER_METER)
        end
      else
        let lookupLie := if Lie_eqb lie FRINGE then FAIRWAY else lie in
        match B lookupLie with
        | None => None
        | Some points =>
            if (length points =? 0)%nat then None
            else interpolate points (d / METERS_PER_YARD)
        end
  | _ => Some 0
  end.

(** ** Categorisation and strokes gained (second part of
    [src/types/golf.ts]) *)

Inductive ShotCategory : Type := OTT | APP | ARG | PUTT.

Definition categorizeShot (shot : Shot) : ShotCategory :=
  if Lie_eqb (startLie shot) TEE then OTT
  else if Lie_eqb (startLie shot) GREEN then PUTT
  else if Lie_eqb (startLie shot) FRINGE then ARG
  else if Lie_eqb (startLie shot) BUNKER || Lie_eqb (startLie shot) RECOVERY
       then ARG
  else if num_leb (startDistance shot) (Fin 30) then ARG else APP.

Record SGResult : Type := mkSG {
  sg : option Q;            (* [number | null] *)
  category : ShotCategory;
  isValid : bool
}.

(** [typeof shot.putts === "number"]. *)
Definition hasPutts (shot : Shot) : bool :=
  match putts shot with Some _ => true | None => false end.

Definition isHoled (shot : Shot) : bool :=
  (Lie_eqb (endLie shot) GREEN && num_eqb (endDistance shot) (Fin 0))
  || (Lie_eqb (startLie shot) GREEN && hasPutts shot).

Definition expectedStart (B : Baseline) (shot : Shot) : option Q :=
  getExpectedStrokes B (startLie shot) (startDistance shot).

Definition expectedEnd (B : Baseline) (shot : Shot) : option Q :=
  if isHoled shot then Some 0
  else getExpectedStrokes B (endLie shot) (endDistance shot).

Definition strokesUsed (shot : Shot) : Q :=
  match Lie_eqb (startLie shot) GREEN, putts shot with
  | true, Some p => p + penaltyStrokes shot
  | _, _ => 1 + penaltyStrokes shot
  end.

(** [Math.round]: the nearest integer, a tie going towards plus infinity. *)
Definition Math_round (x : Q) : Z := Qfloor (x + 0.5).

(** [Math.round(raw * 1000) / 1000]. *)
Definition round3 (raw : Q) : Q := inject_Z (Math_round (raw * 1000)) / 1000.

Definition calculateStrokesGained (B : Baseline) (shot : Shot) : SGResult :=
  match expectedStart B shot, expectedEnd B shot with
  | Some eStart, Some eEnd =>
      let raw := eStart - eEnd - strokesUsed shot in
      mkSG (Some (round3 raw)) (categorizeShot shot) true
  | _, _ => mkSG None APP false
  end.

(** ** Shots as the program receives them at run time *)

(** [importRounds] admits a shot as soon as [startLie] and [endLie] are
    strings ([isValidShot]), and the pages hand every stored shot to
    [calculateStrokesGained]; so a shot can carry a lie that is none of
    the seven names.  [UnknownLie name] is such a string, one under which
    the baseline object holds nothing. *)
Inductive RuntimeLie : Type :=
  | KnownLie (lie : Lie)
  | UnknownLie (name : string).

Record RuntimeShot : Type := mkRuntimeShot {
  rt_holeNumber : Z;
  rt_shotNumber : Z;
  rt_startLie : RuntimeLie;
  rt_startDistance : number;
  rt_endLie : RuntimeLie;
  rt_endDistance : number;
  rt_penaltyStrokes : Q;
  rt_putts : option Q
}.

(** A shot of the typed model, as a run-time shot. *)
Definition runtimeOf (shot : Shot) : RuntimeShot :=
  mkRuntimeShot (holeNumber shot) (shotNumber shot)
    (KnownLie (startLie shot)) (startDistance shot)
    (KnownLie (endLie shot)) (endDistance shot)
    (penaltyStrokes shot) (putts shot).

(** [lie === k] for one of the seven names [k]. *)
Definition lieIs (lie : RuntimeLie) (k : Lie) : bool :=
  match lie with
  | KnownLie l => Lie_eqb l k
  | UnknownLie _ => false
  end.

(** [getExpectedStrokes] on a run-time lie.  After the guard on the
    distance, an unknown name is not GREEN and not FRINGE, the table has
    nothing under it, and [!points] returns [null]. *)
Definition getExpectedStrokesRT (B : Baseline) (lie : RuntimeLie)
  (distanceM : number) : option Q :=
  match lie with
  | KnownLie l => getExpectedStrokes B l distanceM
  | UnknownLie _ =>
      match distanceM with
      | Fin d => if Qle_bool d 0 then Some 0 else None
      | _ => Some 0
      end
  end.

Definition categorizeShotRT (shot : RuntimeShot) : ShotCategory :=
  if lieIs (rt_startLie shot) TEE then OTT
  else if lieIs (rt_startLie shot) GREEN then PUTT
  else if lieIs (rt_startLie shot) FRINGE then ARG
  else if lieIs (rt_startLie shot) BUNKER || lieIs (rt_startLie shot) RECOVERY
       then ARG
  else if num_leb (rt_startDistance shot) (Fin 30) then ARG else APP.

Definition isHoledRT (shot : RuntimeShot) : bool :=
  (lieIs (rt_endLie shot) GREEN && num_eqb (rt_endDistance shot) (Fin 0))
  || (lieIs (rt_startLie shot) GREEN
      && match rt_putts shot with Some _ => true | None => false end).

Definition expectedStartRT (B : Baseline) (shot : RuntimeShot) : option Q :=
  getExpectedStrokesRT B (rt_startLie shot) (rt_startDistance shot).

Definition expectedEndRT (B : Baseline) (shot : RuntimeShot) : option Q :=
  if isHoledRT shot then Some 0
  else getExpectedStrokesRT B (rt_endLie shot) (rt_endDistance shot).

Definition strokesUsedRT (shot : RuntimeShot) : Q :=
  match lieIs (rt_startLie shot) GREEN, rt_putts shot with
  | true, Some p => p + rt_penaltyStrokes shot
  | _, _ => 1 + rt_penaltyStrokes shot
  end.

Definition calculateStrokesGainedRT (B : Baseline) (shot : RuntimeShot)
  : SGResult :=
  match expectedStartRT B shot, expectedEndRT B shot with
  | Some eStart, Some eEnd =>
      let raw := eStart - eEnd - strokesUsedRT shot in
      mkSG (Some (round3 raw)) (categorizeShotRT shot) true
  | _, _ => mkSG None APP false
  end.

(** ** Dashboard aggregation (dashboard page: [sumTotals], [aggregate]) *)

(** [Totals]; the fields are the keys OTT, APP, ARG, PUTT and TOTAL. *)
Record Totals : Type := mkTotals {
  tot_OTT : Q;
  tot_APP : Q;
  tot_ARG : Q;
  tot_PUTT : Q;
  tot_TOTAL : Q
}.

Definition zeroTotals : Totals := mkTotals 0 0 0 0 0.

(** [base[category] += sg; base.TOTAL += sg]. *)
Definition addShot (base : Totals) (c : ShotCategory) (v : Q) : Totals :=
  match c with
  | OTT => mkTotals (tot_OTT base + v) (tot_APP base) (tot_ARG base)
             (tot_PUTT base) (tot_TOTAL base + v)
  | APP => mkTotals (tot_OTT base) (tot_APP base + v) (tot_ARG base)
             (tot_PUTT base) (tot_TOTAL base + v)
  | ARG => mkTotals (tot_OTT base) (tot_APP base) (tot_ARG base + v)
             (tot_PUTT base) (tot_TOTAL base + v)
  | PUTT => mkTotals (tot_OTT base) (tot_APP base) (tot_ARG base)
             (tot_PUTT base + v) (tot_TOTAL base + v)
  end.

Definition sumTotals (B : Baseline) (shots : list Shot) : Totals :=
  fold_left
    (fun base shot =>
       let r := calculateStrokesGained B shot in
       match isValid r, sg r with
       | true, Some v => addShot base (category r) v
       | _, _ => base
       end)
    shots zeroTotals.

Record Round : Type := mkRound {
  id : nat;
  createdAt : Z;
  shots : list Shot
}.

Record RoundWithTotals : Type := mkRWT {
  round : Round;
  totals : Totals
}.

Definition roundsWithTotals (B : Baseline) (rounds : list Round)
  : list RoundWithTotals :=
  map (fun r => mkRWT r (sumTotals B (shots r))) rounds.

(** [Math.max(...xs)] and [Math.min(...xs)]: the fold starts from minus
    (plus) infinity, which is the value on no argument. *)
Definition Math_max (xs : list Q) : number :=
  fold_left
    (fun acc x =>
       match acc with
       | Fin a => Fin (if Qle_bool a x then x else a)
       | _ => Fin x
       end)
    xs NegInf.

Definition Math_min (xs : list Q) : number :=
  fold_left
    (fun acc x =>
       match acc with
       | Fin a => Fin (if Qle_bool x a then x else a)
       | _ => Fin x
       end)
    xs PosInf.

Record Aggregate : Type := mkAggregate {
  avg : Totals;
  best : number;
  worst : number
}.

Definition addTotals (base t : Totals) : Totals :=
  mkTotals (tot_OTT base + tot_OTT t) (tot_APP base + tot_APP t)
    (tot_ARG base + tot_ARG t) (tot_PUTT base + tot_PUTT t)
    (tot_TOTAL base + tot_TOTAL t).

Definition aggregate (filteredRounds : list RoundWithTotals) : Aggregate :=
  if (length filteredRounds =? 0)%nat then mkAggregate zeroTotals (Fin 0) (Fin 0)
  else
    let base :=
      fold_left (fun b item => addTotals b (totals item))
        filteredRounds zeroTotals in
    let count := inject_Z (Z.of_nat (length filteredRounds)) in
    let avg :=
      mkTotals (tot_OTT base / count) (tot_APP base / count)
        (tot_ARG base / count) (tot_PUTT base / count)
        (tot_TOTAL base / count) in
    let totals := map (fun r => tot_TOTAL (totals r)) filteredRounds in
    mkAggregate avg (Math_max totals) (Math_min totals).

(** ** Properties named by the specification *)

(** Rounding to the nearest integer with a tie going away from zero, and
    the three-decimal rounding built on it (the rule the specification
    names for [sg]). *)
Definition round_half_away (x : Q) : Z :=
  if Qle_bool 0 x then Qfloor (x + 0.5) else Qceiling (x - 0.5).

Definition round3_half_away (raw : Q) : Q :=
  inject_Z (round_half_away (raw * 1000)) / 1000.

(** [x] lies exactly halfway between two consecutive integers. *)
Definition is_tie (x : Q) : Prop := exists n : Z, x + 0.5 == inject_Z n.

(** The lie whose curve a lookup reads, and the distance in the unit of
    that curve. *)
Definition lookupLie (lie : Lie) : Lie :=
  match lie with FRINGE => FAIRWAY | l => l end.

Definition nativeDistance (lie : Lie) (d : Q) : Q :=
  match lie with
  | GREEN => d * FEET_PER_METER
  | _ => d / METERS_PER_YARD
  end.

(** [i] is the lowest index whose pair [points[i], points[i+1]] brackets
    [x]. *)
Definition first_bracketing (points : Table) (x : Q) (i : nat)
  (p0 p1 : Q * Q) : Prop :=
  nth_error points i = Some p0 /\
  nth_error points (S i) = Some p1 /\
  fst p0 <= x /\ x <= fst p1 /\
  forall j q0 q1, (j < i)%nat ->
    nth_error points j = Some q0 -> nth_error points (S j) = Some q1 ->
    ~ (fst q0 <= x /\ x <= fst q1).

(** Control points in strictly increasing distance (the data-model
    invariant of a curve) and in non-decreasing expected strokes. *)
Fixpoint increasing_distance (points : Table) : bool :=
  match points with
  | p0 :: ((p1 :: _) as rest) =>
      negb (Qle_bool (fst p1) (fst p0)) && increasing_distance rest
  | _ => true
  end.

Fixpoint nondecreasing_strokes (points : Table) : bool :=
  match points with
  | p0 :: ((p1 :: _) as rest) =>
      Qle_bool (snd p0) (snd p1) && nondecreasing_strokes rest
  | _ => true
  end.

(** A curve of the data model whose strokes never decrease. *)
Definition well_formed_curve (points : Table) : Prop :=
  increasing_distance points = true /\ nondecreasing_strokes points = true.

(** [d] (metres) falls between the first and the last control point of the
    curve that [lie] resolves to. *)
Definition in_curve_range (B : Baseline) (lie : Lie) (d : Q) : Prop :=
  match B (lookupLie lie) with
  | Some (first :: rest) =>
      fst first <= nativeDistance lie d /\
      nativeDistance lie d <= fst (List.last (first :: rest) first)
  | _ => False
  end.

(** Order on results of the estimator: both available and ordered. *)
Definition strokes_le (a b : option Q) : Prop :=
  match a, b with
  | Some x, Some y => x <= y
  | _, _ => False
  end.

Definition monotone_on_range (B : Baseline) (lie : Lie) : Prop :=
  forall d1 d2 : Q,
    in_curve_range B lie d1 -> in_curve_range B lie d2 -> d1 <= d2 ->
    strokes_le (getExpectedStrokes B lie (Fin d1))
               (getExpectedStrokes B lie (Fin d2)).

(** A distance that is a finite positive number. *)
Definition finite_positive (x : number) : Prop :=
  match x with Fin q => 0 < q | _ => False end.

(** A distance that is the number zero. *)
Definition is_zero (x : number) : Prop :=
  match x with Fin q => q == 0 | _ => False end.

(** The same shot started from another lie. *)
Definition withStartLie (lie : Lie) (shot : Shot) : Shot :=
  mkShot (holeNumber shot) (shotNumber shot) lie (startDistance shot)
    (endLie shot) (endDistance shot) (penaltyStrokes shot) (putts shot).

(** The returned [sg] is the half-away-from-zero rounding of the raw
    value. *)
Definition sg_rounds_half_away (B : Baseline) (shot : Shot) : Prop :=
  forall eStart eEnd v,
    expectedStart B shot = Some eStart ->
    expectedEnd B shot = Some eEnd ->
    sg (calculateStrokesGained B shot) = Some v ->
    v == round3_half_away (eStart - eEnd - strokesUsed shot).


(** ** Sample shots *)

(** A tee shot from 101 yards (92.3544 m) that finishes on the fairway
    20 yards (18.288 m) out, no penalty. *)
Definition teeShot101 : Shot :=
  mkShot 1 1 TEE (Fin 92.3544) FAIRWAY (Fin 18.288) 0 None.

(** A tee shot from 50 yards (45.72 m) into the rough 35 yards
    (32.004 m) out, no penalty.  Every intermediate value of the
    calculation is the same in binary64 and in exact arithmetic:
    50 and 35 yards, 2.92 and 2.7325 strokes, raw -0.8125. *)
Definition teeShot50 : Shot :=
  mkShot 1 1 TEE (Fin 45.72) ROUGH (Fin 32.004) 0 None.


(** One putt holed from 3 m. *)
Definition holedPutt : Shot :=
  mkShot 1 3 GREEN (Fin 3) GREEN (Fin 0) 0 (Some 1).

(** A hole in three shots: the tee shot above, a pitch from the fairway
    to 2 m, and two putts. *)
Definition sampleHole : list Shot :=
  [ teeShot101;
    mkShot 1 2 FAIRWAY (Fin 18.288) GREEN (Fin 2) 0 None;
    mkShot 1 3 GREEN (Fin 2) GREEN (Fin 0) 0 (Some 2) ].

(** A round of an earlier version of the application, with one putt
    whose distance is still to be converted. *)
Definition legacyRound : Round := mkRound 7 100 [holedPutt].

(** A round of an earlier version whose putt carries a distance that
    overflows when converted to feet. *)
Definition hugeLegacyRound : Round :=
  mkRound 8 100
    [mkShot 1 1 GREEN (Fin (inject_Z (10 ^ 308))) GREEN (Fin 0) 0 (Some 1)].

(** A chip from the fringe, 40 m out, to 2 m on the green. *)
Definition fringeChip : Shot :=
  mkShot 2 2 FRINGE (Fin 40) GREEN (Fin 2) 0 None.

(** ** Further code: helpers of the statements below *)

(** Every control point of the table has its strokes within [lo, hi]. *)
Definition strokes_within (lo hi : Q) (points : Table) : bool :=
  forallb (fun p => Qle_bool lo (snd p) && Qle_bool (snd p) hi) points.

(** ** Further code: round summary page *)

(** JavaScript [x < y] on finite numbers. *)
Definition Qltb (x y : Q) : bool := negb (Qle_bool y x).

(** The sum of a list of numbers. *)
Definition sumQ (xs : list Q) : Q := fold_right Qplus 0 xs.

(** Summary page, [totals]: skips a shot on [!isValid] alone and adds
    [sg ?? 0]. *)
Definition summaryTotals (B : Baseline) (shots : list Shot) : Totals :=
  fold_left
    (fun base shot =>
       let r := calculateStrokesGained B shot in
       if negb (isValid r) then base
       else
         let v := match sg r with Some v => v | None => 0 end in
         addShot base (category r) v)
    shots zeroTotals.

(** Summary page, [weakness]: the first entry of least value among the
    negative ones; [None] is [null]. *)
Definition weaknessEntries (totals : Totals) : list (string * Q) :=
  [ ("Off the Tee"%string, tot_OTT totals);
    ("Approach"%string, tot_APP totals);
    ("Around the Green"%string, tot_ARG totals);
    ("Putting"%string, tot_PUTT totals) ].

Definition weakness (totals : Totals) : option (string * Q) :=
  let negatives := filter (fun e => Qltb (snd e) 0) (weaknessEntries totals) in
  match negatives with
  | [] => None
  | first :: _ =>
      Some (fold_left
              (fun worst entry =>
                 if Qltb (snd entry) (snd worst) then entry else worst)
              negatives first)
  end.










(** Summary page (second variant): [totalStrokes], [totalPenalties],
    [adjustedScore]. *)
Definition totalStrokes (shots : list Shot) : Q :=
  fold_left
    (fun sum shot => sum + match putts shot with Some p => p | None => 1 end)
    shots 0.

(** [penaltyStrokes || 0]: zero is falsy. *)
Definition penaltyOrZero (shot : Shot) : Q :=
  if Qeq_bool (penaltyStrokes shot) 0 then 0 else penaltyStrokes shot.

Definition totalPenalties (shots : list Shot) : Q :=
  fold_left (fun sum shot => sum + penaltyOrZero shot) shots 0.

Definition adjustedScore (shots : list Shot) : Q :=
  totalStrokes shots + totalPenalties shots.

(** What a shot adds to TOTAL: its [sg] when the result is valid. *)
Definition contribution (B : Baseline) (shot : Shot) : Q :=
  let r := calculateStrokesGained B shot in
  match isValid r, sg r with
  | true, Some v => v
  | _, _ => 0
  end.

(** The shots of one hole in the order played: each shot starts where
    the one before ended, no shot but the last is holed, the last one
    is. *)
Fixpoint chained (shots : list Shot) : Prop :=
  match shots with
  | [] => False
  | [s] => isHoled s = true
  | s1 :: ((s2 :: _) as rest) =>
      isHoled s1 = false /\
      endLie s1 = startLie s2 /\ endDistance s1 = startDistance s2 /\
      chained rest
  end.

(** Putts are recorded on shots from the green only (the invariant of
    the data model). *)
Definition putts_on_green (shot : Shot) : Prop :=
  putts shot <> None -> startLie shot = GREEN.

(** ** Further code: round page ([src/pages/round/[id].tsx]) *)

(** [Array.prototype.sort] with the comparator
    [(a, b) => a.shotNumber - b.shotNumber]: the sort is stable, so the
    result is the one arrangement in non-decreasing [shotNumber] that
    keeps equal shots in their order; insertion from the right computes
    it. *)
Fixpoint insertByShotNumber (s : Shot) (sorted : list Shot) : list Shot :=
  match sorted with
  | [] => [s]
  | t :: rest =>
      if (shotNumber s <=? shotNumber t)%Z then s :: t :: rest
      else t :: insertByShotNumber s rest
  end.

Definition sortByShotNumber (l : list Shot) : list Shot :=
  fold_right insertByShotNumber [] l.

(** [getSortedShotsForHole(round, holeNumber)], over the shots of the
    round. *)
Definition getSortedShotsForHole (roundShots : list Shot) (hole : Z)
  : list Shot :=
  sortByShotNumber
    (filter (fun s => (holeNumber s =? hole)%Z) roundShots).

(** [isHoleFinished(shots)]. *)
Definition isHoleFinished (holeShots : list Shot) : bool :=
  existsb
    (fun s => Lie_eqb (endLie s) GREEN && num_eqb (endDistance s) (Fin 0))
    holeShots.

(** The [for] loop of [getResumeHole] from [hole] on; [fuel] bounds the
    number of iterations, and running out of it is the loop running to
    its end. *)
Fixpoint resumeFrom (roundShots : list Shot) (targetHoles hole : Z)
  (fuel : nat) : Z :=
  match fuel with
  | O => targetHoles
  | S fuel' =>
      if (hole <=? targetHoles)%Z then
        let holeShots := getSortedShotsForHole roundShots hole in
        if (length holeShots =? 0)%nat then hole
        else if negb (isHoleFinished holeShots) then hole
        else resumeFrom roundShots targetHoles (hole + 1) fuel'
      else targetHoles
  end.

(** [getResumeHole(round)], over [round.targetHoles] ([None] when the
    field is missing, read as 18) and [round.shots]. *)
Definition getResumeHole (targetHoles : option Z) (roundShots : list Shot)
  : Z :=
  let target := match targetHoles with Some t => t | None => 18%Z end in
  resumeFrom roundShots target 1 (Z.to_nat target).

(** Round page, [isHoleComplete] for the hole on screen (saving a shot
    is refused when it holds). *)
Definition isHoleComplete (roundShots : list Shot) (hole : Z) : bool :=
  existsb
    (fun s => Lie_eqb (endLie s) GREEN && num_eqb (endDistance s) (Fin 0))
    (filter (fun s => (holeNumber s =? hole)%Z) roundShots).

(** A shot that holes out: it ends on the green at distance zero. *)
Definition holesOut (s : Shot) : Prop :=
  endLie s = GREEN /\ is_zero (endDistance s).

(** Some shot of the round holes out on [hole]. *)
Definition holeDone (roundShots : list Shot) (hole : Z) : Prop :=
  exists s, In s roundShots /\ holeNumber s = hole /\ holesOut s.

(** ** Further code: storage (second part of
    [src/lib/expectedStrokes.ts]) *)

Module RoundStorage.

(** The browser state the module reads and writes: whether [window]
    exists, the array last written as JSON under STORAGE_KEY ([None] when
    there is nothing there, or nothing that parses to an array), and
    whether MIGRATION_KEY is set. *)
Record Storage : Type := mkStorage {
  hasWindow : bool;
  roundsItem : option (list Round);
  migrationItem : bool
}.

(** A distance after [JSON.stringify], [JSON.parse] and
    [normalizeRound]: JSON writes a non-finite number as [null], and
    [normalizeRound] reads [startDistance ?? startDistanceM ?? 0], which
    is 0 on [null] for a shot without the legacy field.  On a finite
    number nothing changes. *)
Definition readBackNumber (x : number) : number :=
  match x with Fin q => Fin q | _ => Fin 0 end.

Definition readBackShot (s : Shot) : Shot :=
  mkShot (holeNumber s) (shotNumber s) (startLie s)
    (readBackNumber (startDistance s)) (endLie s)
    (readBackNumber (endDistance s)) (penaltyStrokes s) (putts s).

Definition readBackRound (r : Round) : Round :=
  mkRound (id r) (createdAt r) (map readBackShot (shots r)).

(** [safeParse] of the item: the parsed array, each round through
    [normalizeRound]. *)
Definition safeParse (item : option (list Round)) : list Round :=
  match item with
  | None => []
  | Some data => map readBackRound data
  end.

(** The least magnitude that binary64 rounds to an infinity: halfway
    between the largest double and [2 ^ 1024]. *)
Definition OVERFLOW : Q := inject_Z (2 ^ 1024 - 2 ^ 970)%Z.

(** [x * 3.28084] on a JavaScript number; a product of overflowing
    magnitude is an infinity. *)
Definition toFeet (x : number) : number :=
  match x with
  | Fin q =>
      let product := q * 3.28084 in
      if Qle_bool OVERFLOW product then PosInf
      else if Qle_bool product (- OVERFLOW) then NegInf
      else Fin product
  | other => other
  end.

(** The shot conversion of [migrateGreenFeetIfNeeded]. *)
Definition convertShot (s : Shot) : Shot :=
  mkShot (holeNumber s) (shotNumber s) (startLie s)
    (if Lie_eqb (startLie s) GREEN then toFeet (startDistance s)
     else startDistance s)
    (endLie s)
    (if Lie_eqb (endLie s) GREEN then toFeet (endDistance s)
     else endDistance s)
    (penaltyStrokes s) (putts s).

Definition convertRound (r : Round) : Round :=
  mkRound (id r) (createdAt r) (map convertShot (shots r)).

Definition migrateGreenFeetIfNeeded (rounds : list Round) (st : Storage)
  : list Round * Storage :=
  if negb (hasWindow st) then (rounds, st)
  else if migrationItem st then (rounds, st)
  else if (length rounds =? 0)%nat then
    (rounds, mkStorage (hasWindow st) (roundsItem st) true)
  else
    let converted := map convertRound rounds in
    (converted, mkStorage (hasWindow st) (Some converted) true).

Definition loadRounds (st : Storage) : list Round * Storage :=
  if negb (hasWindow st) then ([], st)
  else migrateGreenFeetIfNeeded (safeParse (roundsItem st)) st.

(** [persistRounds]; on rounds of the typed model [normalizeRound]
    changes nothing before the write. *)
Definition persistRounds (rounds : list Round) (st : Storage) : Storage :=
  if negb (hasWindow st) then st
  else mkStorage (hasWindow st) (Some rounds) (migrationItem st).

(** [rounds.findIndex((r) => r.id === wanted)]; [None] is -1. *)
Fixpoint findIndex (wanted : nat) (rounds : list Round) : option nat :=
  match rounds with
  | [] => None
  | r :: rest =>
      if (id r =? wanted)%nat then Some 0%nat
      else option_map S (findIndex wanted rest)
  end.

(** [rounds[idx] = r] for an index inside the array. *)
Fixpoint replaceAt (idx : nat) (r : Round) (rounds : list Round)
  : list Round :=
  match rounds, idx with
  | [], _ => []
  | _ :: rest, O => r :: rest
  | x :: rest, S idx' => x :: replaceAt idx' r rest
  end.

Definition saveRound (r : Round) (st : Storage) : Storage :=
  let (rounds, st1) := loadRounds st in
  match findIndex (id r) rounds with
  | None => persistRounds (r :: rounds) st1
  | Some idx => persistRounds (replaceAt idx r rounds) st1
  end.

Definition updateRound (updated : Round) (st : Storage) : Storage :=
  let (rounds, st1) := loadRounds st in
  match findIndex (id updated) rounds with
  | None => st1
  | Some idx => persistRounds (replaceAt idx updated rounds) st1
  end.

Definition getRound (wanted : nat) (st : Storage) : option Round * Storage :=
  let (rounds, st1) := loadRounds st in
  (find (fun r => (id r =? wanted)%nat) rounds, st1).

Definition addShot (roundId : nat) (shot : Shot) (st : Storage)
  : option Round * Storage :=
  let (rounds, st1) := loadRounds st in
  match findIndex roundId rounds with
  | None => (None, st1)
  | Some idx =>
      match nth_error rounds idx with
      | None => (None, st1)
      | Some r =>
          let updated := mkRound (id r) (createdAt r) (shots r ++ [shot]) in
          (Some updated, persistRounds (replaceAt idx updated rounds) st1)
      end
  end.

Definition undoLastShot (roundId : nat) (st : Storage)
  : option Round * Storage :=
  let (rounds, st1) := loadRounds st in
  match findIndex roundId rounds with
  | None => (None, st1)
  | Some idx =>
      match nth_error rounds idx with
      | None => (None, st1)
      | Some r =>
          if (length (shots r) =? 0)%nat then (Some r, st1)
          else
            let updated := mkRound (id r) (createdAt r) (removelast (shots r)) in
            (Some updated, persistRounds (replaceAt idx updated rounds) st1)
      end
  end.

Definition deleteRound (wanted : nat) (st : Storage) : Storage :=
  let (rounds, st1) := loadRounds st in
  persistRounds (filter (fun r => negb (id r =? wanted)%nat) rounds) st1.

End RoundStorage.

(** * Proofs *)

(** ** Comparisons *)

Lemma Qle_bool_false (x y : Q) : Qle_bool x y = false <-> y < x.
Proof.
  split; intro H.
  - apply Qnot_le_lt. intro Hle. apply Qle_bool_iff in Hle. congruence.
  - destruct (Qle_bool x y) eqn:E; [|reflexivity].
    apply Qle_bool_iff in E. exfalso. apply (Qlt_not_le _ _ H E).
Qed.

Lemma Lie_eqb_eq (a b : Lie) : Lie_eqb a b = true <-> a = b.
Proof. destruct a, b; simpl; split; congruence. Qed.

Lemma brackets_iff (p0 p1 : Q * Q) (x : Q) :
  brackets p0 p1 x = true <-> fst p0 <= x /\ x <= fst p1.
Proof.
  unfold brackets. rewrite andb_true_iff, !Qle_bool_iff. reflexivity.
Qed.

Lemma lerp_formula (p0 p1 : Q * Q) (x : Q) :
  lerp p0 p1 x
  = snd p0 + (x - fst p0) / (fst p1 - fst p0) * (snd p1 - snd p0).
Proof. destruct p0, p1. reflexivity. Qed.

(** ** The scan loop *)

Section Scan.

Variable x : Q.

(** A successful scan returns the segment value of the lowest bracketing
    pair. *)
Lemma scan_some (points : Table) (v : Q) :
  scan points x = Some v ->
  exists i p0 p1, first_bracketing points x i p0 p1 /\ v = lerp p0 p1 x.
Proof.
  induction points as [|p0 rest IH]; [discriminate|].
  destruct rest as [|p1 rest']; [discriminate|].
  cbn [scan]. destruct (brackets p0 p1 x) eqn:Hb.
  - intros [= <-]. exists 0%nat, p0, p1.
    apply brackets_iff in Hb as [Hlo Hhi].
    repeat split; auto. intros j q0 q1 Hj. lia.
  - intros Hs. destruct (IH Hs) as (i & q0 & q1 & Hfb & ->).
    destruct Hfb as (Hn0 & Hn1 & Hlo & Hhi & Hmin).
    exists (S i), q0, q1. repeat split; auto.
    intros j r0 r1 Hj Hr0 Hr1 Hbr.
    destruct j as [|j].
    + cbn in Hr0, Hr1. injection Hr0 as <-. injection Hr1 as <-.
      apply brackets_iff in Hbr. congruence.
    + cbn in Hr0. apply (Hmin j r0 r1); auto. lia.
Qed.

(** Between the first and the last control point the scan always finds a
    pair: the loop of [interpolate] never runs to its end there. *)
Lemma scan_finds (p : Q * Q) (rest : Table) :
  rest <> [] ->
  fst p <= x -> x <= fst (List.last (p :: rest) p) ->
  exists v, scan (p :: rest) x = Some v.
Proof.
  revert p. induction rest as [|p1 rest' IH]; intros p Hne Hlo Hhi;
    [congruence|].
  cbn [scan]. destruct (brackets p p1 x) eqn:Hb; [eauto|].
  assert (Hp1 : fst p1 < x).
  { apply Qnot_le_lt. intro Hle.
    assert (brackets p p1 x = true) by (apply brackets_iff; auto).
    congruence. }
  destruct rest' as [|p2 rest''].
  - cbn in Hhi. exfalso. apply (Qlt_not_le _ _ Hp1 Hhi).
  - apply IH.
    + discriminate.
    + apply Qlt_le_weak, Hp1.
    + change (List.last (p :: p1 :: p2 :: rest'') p)
        with (List.last (p2 :: rest'') p) in Hhi.
      change (List.last (p1 :: p2 :: rest'') p1)
        with (List.last (p2 :: rest'') p1).
      clear -Hhi. revert p2 Hhi.
      induction rest'' as [|q r IHr]; intros p2 Hhi; [exact Hhi|].
      apply IHr. exact Hhi.
Qed.

End Scan.

Lemma last_cons_default (p q : Q * Q) (rest : Table) :
  rest <> [] -> List.last (p :: rest) q = List.last rest q.
Proof. destruct rest; [congruence|reflexivity]. Qed.

Lemma last_default_irrelevant (rest : Table) (p q : Q * Q) :
  rest <> [] -> List.last rest p = List.last rest q.
Proof.
  induction rest as [|a r IH]; [congruence|].
  intros _. destruct r as [|b r']; [reflexivity|].
  change (List.last (b :: r') p = List.last (b :: r') q).
  apply IH. discriminate.
Qed.

(** [interpolate] returns on every non-empty table. *)
Lemma interpolate_total (points : Table) (x : Q) :
  points <> [] -> exists v, interpolate points x = Some v.
Proof.
  destruct points as [|first rest]; [congruence|]. intros _.
  unfold interpolate.
  destruct (Qle_bool x (fst first)); [eauto|].
  destruct (Qle_bool (fst (List.last (first :: rest) first)) x); [eauto|].
  destruct (scan (first :: rest) x); eauto.
Qed.

(** The three branches of [interpolate], in the order the code takes
    them. *)
Lemma interpolate_cases (first : Q * Q) (rest : Table) (x : Q) :
  let points := first :: rest in
  let last := List.last points first in
  (x <= fst first -> interpolate points x = Some (snd first)) /\
  (fst first < x -> fst last <= x ->
     interpolate points x = Some (snd last)) /\
  (fst first < x -> x < fst last ->
     exists i p0 p1,
       first_bracketing points x i p0 p1 /\
       interpolate points x
       = Some (snd p0 + (x - fst p0) / (fst p1 - fst p0) * (snd p1 - snd p0))).
Proof.
  intros points last. unfold interpolate, points. fold points. fold last.
  repeat split.
  - intros H. apply Qle_bool_iff in H. rewrite H. reflexivity.
  - intros H1 H2. apply Qle_bool_false in H1. apply Qle_bool_iff in H2.
    rewrite H1, H2. reflexivity.
  - intros H1 H2.
    assert (Hne : rest <> []).
    { intros ->. cbn in last. subst last.
      apply (Qlt_irrefl x). apply Qlt_trans with (fst first); auto. }
    destruct (scan_finds x first rest Hne) as [v Hv].
    + apply Qlt_le_weak, H1.
    + apply Qlt_le_weak, H2.
    + destruct (scan_some x points v Hv) as (i & p0 & p1 & Hfb & ->).
      apply Qle_bool_false in H1. apply Qle_bool_false in H2.
      rewrite H1, H2. unfold points in Hv |- *. rewrite Hv.
      exists i, p0, p1. split; [exact Hfb|]. rewrite lerp_formula. reflexivity.
Qed.

(** ** Monotone curves *)

Lemma lerp_bounds (p0 p1 : Q * Q) (x : Q) :
  fst p0 < fst p1 -> snd p0 <= snd p1 -> fst p0 <= x -> x <= fst p1 ->
  snd p0 <= lerp p0 p1 x /\ lerp p0 p1 x <= snd p1.
Proof.
  destruct p0 as [d0 s0], p1 as [d1 s1]. cbn [fst snd lerp].
  intros Hd Hs Hlo Hhi.
  assert (Hk : 0 < / (d1 - d0)) by (apply Qinv_lt_0_compat; lra).
  assert (Hone : (d1 - d0) * / (d1 - d0) == 1) by (apply Qmult_inv_r; lra).
  unfold Qdiv. set (k := / (d1 - d0)) in *.
  assert (Ht0 : 0 <= (x - d0) * k) by (apply Qmult_le_0_compat; lra).
  assert (Ht1 : (x - d0) * k <= 1).
  { rewrite <- Hone. apply Qmult_le_compat_r; lra. }
  set (t := (x - d0) * k) in *.
  split; nra.
Qed.

Lemma lerp_mono (p0 p1 : Q * Q) (x y : Q) :
  fst p0 < fst p1 -> snd p0 <= snd p1 -> x <= y ->
  lerp p0 p1 x <= lerp p0 p1 y.
Proof.
  destruct p0 as [d0 s0], p1 as [d1 s1]. cbn [fst snd lerp].
  intros Hd Hs Hxy.
  assert (Hk : 0 < / (d1 - d0)) by (apply Qinv_lt_0_compat; lra).
  unfold Qdiv. set (k := / (d1 - d0)) in *.
  assert (Hc : 0 <= k * (s1 - s0)) by (apply Qmult_le_0_compat; lra).
  assert (H : (x - d0) * (k * (s1 - s0)) <= (y - d0) * (k * (s1 - s0))).
  { apply Qmult_le_compat_r; lra. }
  rewrite <- !Qmult_assoc. lra.
Qed.

Lemma well_formed_cons (p0 p1 : Q * Q) (rest : Table) :
  well_formed_curve (p0 :: p1 :: rest) ->
  fst p0 < fst p1 /\ snd p0 <= snd p1 /\ well_formed_curve (p1 :: rest).
Proof.
  unfold well_formed_curve. cbn [increasing_distance nondecreasing_strokes].
  rewrite !andb_true_iff, negb_true_iff, Qle_bool_false, Qle_bool_iff.
  tauto.
Qed.

Lemma strokes_last (p : Q * Q) (rest : Table) :
  well_formed_curve (p :: rest) ->
  snd p <= snd (List.last (p :: rest) p).
Proof.
  revert p. induction rest as [|p1 rest' IH]; intros p Hwf.
  - cbn. apply Qle_refl.
  - apply well_formed_cons in Hwf as (_ & Hs & Hwf).
    rewrite last_cons_default by discriminate.
    rewrite (last_default_irrelevant _ p p1) by discriminate.
    apply Qle_trans with (snd p1); auto.
Qed.

(** A value found by the scan lies between the strokes of the first and
    of the last control point. *)
Lemma scan_bounds (p : Q * Q) (rest : Table) (x v : Q) :
  well_formed_curve (p :: rest) -> fst p <= x ->
  scan (p :: rest) x = Some v ->
  snd p <= v /\ v <= snd (List.last (p :: rest) p).
Proof.
  revert p. induction rest as [|p1 rest' IH]; intros p Hwf Hlo;
    [discriminate|].
  pose proof (strokes_last _ _ (proj2 (proj2 (well_formed_cons _ _ _ Hwf))))
    as Hlast.
  apply well_formed_cons in Hwf as (Hd & Hs & Hwf).
  rewrite last_cons_default by discriminate.
  rewrite (last_default_irrelevant _ p p1) by discriminate.
  cbn [scan]. destruct (brackets p p1 x) eqn:Hb.
  - intros [= <-]. apply brackets_iff in Hb as [_ Hhi].
    destruct (lerp_bounds p p1 x Hd Hs Hlo Hhi). split; [assumption|].
    apply Qle_trans with (snd p1); assumption.
  - intros Hscan.
    assert (Hp1 : fst p1 <= x).
    { apply Qlt_le_weak, Qnot_le_lt. intro Hle.
      assert (brackets p p1 x = true) by (apply brackets_iff; auto).
      congruence. }
    destruct (IH p1 Hwf Hp1 Hscan). split; [|assumption].
    apply Qle_trans with (snd p1); assumption.
Qed.

Lemma scan_mono (p : Q * Q) (rest : Table) (x y vx vy : Q) :
  well_formed_curve (p :: rest) -> fst p <= x -> x <= y ->
  scan (p :: rest) x = Some vx -> scan (p :: rest) y = Some vy ->
  vx <= vy.
Proof.
  revert p. induction rest as [|p1 rest' IH]; intros p Hwf Hlo Hxy;
    [discriminate|].
  apply well_formed_cons in Hwf as (Hd & Hs & Hwf).
  cbn [scan].
  destruct (brackets p p1 x) eqn:Hbx, (brackets p p1 y) eqn:Hby.
  - intros [= <-] [= <-]. apply lerp_mono; assumption.
  - intros [= <-] Hsy. apply brackets_iff in Hbx as [_ Hhi].
    assert (Hp1 : fst p1 <= y).
    { apply Qlt_le_weak, Qnot_le_lt. intro Hle.
      assert (brackets p p1 y = true)
        by (apply brackets_iff; split; [apply Qle_trans with x|]; auto).
      congruence. }
    destruct (scan_bounds p1 rest' y vy Hwf Hp1 Hsy) as [Hvy _].
    destruct (lerp_bounds p p1 x Hd Hs Hlo Hhi) as [_ Hvx].
    apply Qle_trans with (snd p1); assumption.
  - intros _ _. exfalso.
    apply brackets_iff in Hby as [_ Hhi].
    assert (brackets p p1 x = true)
      by (apply brackets_iff; split; [|apply Qle_trans with y]; auto).
    congruence.
  - intros Hsx Hsy.
    assert (Hp1 : fst p1 <= x).
    { apply Qlt_le_weak, Qnot_le_lt. intro Hle.
      assert (brackets p p1 x = true) by (apply brackets_iff; auto).
      congruence. }
    apply (IH p1 Hwf Hp1 Hxy Hsx Hsy).
Qed.

(** On a well-formed curve [interpolate] is non-decreasing in the
    distance, over all distances (the clamps extend the curve by
    constants). *)
Lemma interpolate_mono (points : Table) (x y vx vy : Q) :
  well_formed_curve points -> x <= y ->
  interpolate points x = Some vx -> interpolate points y = Some vy ->
  vx <= vy.
Proof.
  destruct points as [|first rest]; [discriminate|].
  intros Hwf Hxy. unfold interpolate.
  set (last := List.last (first :: rest) first).
  pose proof (strokes_last first rest Hwf) as Hfl. fold last in Hfl.
  destruct (Qle_bool x (fst first)) eqn:Hx1.
  - intros [= <-].
    destruct (Qle_bool y (fst first)) eqn:Hy1;
      [intros [= <-]; apply Qle_refl|].
    destruct (Qle_bool (fst last) y) eqn:Hy2; [intros [= <-]; exact Hfl|].
    apply Qle_bool_false in Hy1.
    destruct (scan (first :: rest) y) as [v|] eqn:Hs; intros [= <-];
      [|exact Hfl].
    apply (scan_bounds first rest y v Hwf); [apply Qlt_le_weak|]; assumption.
  - apply Qle_bool_false in Hx1.
    assert (Hy1 : Qle_bool y (fst first) = false).
    { apply Qle_bool_false. apply Qlt_le_trans with x; assumption. }
    rewrite Hy1.
    destruct (Qle_bool (fst last) x) eqn:Hx2.
    + intros [= <-].
      assert (Hy2 : Qle_bool (fst last) y = true).
      { apply Qle_bool_iff. apply Qle_bool_iff in Hx2.
        apply Qle_trans with x; assumption. }
      rewrite Hy2. intros [= <-]. apply Qle_refl.
    + assert (Hux : forall v, scan (first :: rest) x = Some v -> v <= snd last).
      { intros v Hs.
        apply (scan_bounds first rest x v Hwf); [apply Qlt_le_weak|];
          assumption. }
      destruct (Qle_bool (fst last) y) eqn:Hy2.
      * destruct (scan (first :: rest) x) as [v|] eqn:Hs;
          intros [= <-] [= <-]; [apply Hux; reflexivity|apply Qle_refl].
      * apply Qle_bool_false in Hx2. apply Qle_bool_false in Hy2.
        assert (Hne : rest <> []).
        { intros ->. cbn in last. subst last.
          apply (Qlt_irrefl x). apply Qlt_trans with (fst first); auto. }
        destruct (scan_finds x first rest Hne) as [wx Hwx];
          [apply Qlt_le_weak, Hx1 | apply Qlt_le_weak, Hx2 |].
        destruct (scan_finds y first rest Hne) as [wy Hwy];
          [apply Qlt_le_weak, Qlt_le_trans with x; assumption
          | apply Qlt_le_weak, Hy2 |].
        rewrite Hwx, Hwy. intros [= <-] [= <-].
        apply (scan_mono first rest x y wx wy Hwf); auto.
        apply Qlt_le_weak, Hx1.
Qed.

(** ** Rounding *)

Lemma Qfloor_unique (z : Q) (m : Z) :
  inject_Z m <= z -> z < inject_Z (m + 1) -> Qfloor z = m.
Proof.
  intros Hlo Hhi.
  assert (H1 : (m <= Qfloor z)%Z).
  { rewrite <- (Qfloor_Z m). apply Qfloor_resp_le, Hlo. }
  assert (H2 : (Qfloor z < m + 1)%Z).
  { rewrite Zlt_Qlt. apply Qle_lt_trans with z; [apply Qfloor_le|exact Hhi]. }
  lia.
Qed.

(** [Math.round] returns the integer nearest to its argument, the upper
    one on a tie. *)
Lemma Math_round_nearest (x : Q) :
  x - 0.5 < inject_Z (Math_round x) /\ inject_Z (Math_round x) <= x + 0.5.
Proof.
  unfold Math_round. split.
  - pose proof (Qlt_floor (x + 0.5)) as H.
    rewrite inject_Z_plus in H. change (inject_Z 1) with 1 in H. lra.
  - apply Qfloor_le.
Qed.

(** Away from negative ties [Math.round] is the half-away-from-zero
    rounding. *)
Lemma Math_round_half_away (x : Q) :
  0 <= x \/ ~ is_tie x -> Math_round x = round_half_away x.
Proof.
  intros H. unfold round_half_away, Math_round.
  destruct (Qle_bool 0 x) eqn:E; [reflexivity|].
  apply Qle_bool_false in E.
  destruct H as [H|H]; [exfalso; apply (Qlt_not_le _ _ E H)|].
  unfold Qceiling. set (n := Qfloor (x + 0.5)).
  assert (Hlo : inject_Z n <= x + 0.5) by apply Qfloor_le.
  assert (Hhi : x + 0.5 < inject_Z (n + 1)) by apply Qlt_floor.
  assert (Hne : ~ x + 0.5 == inject_Z n) by (intro Heq; apply H; exists n; exact Heq).
  assert (Hlt : inject_Z n < x + 0.5).
  { apply Qle_lteq in Hlo as [Hlo|Hlo]; [exact Hlo|].
    exfalso. apply Hne. symmetry. exact Hlo. }
  rewrite inject_Z_plus in Hhi. change (inject_Z 1) with 1 in Hhi.
  assert (Hf : Qfloor (- (x - 0.5)) = (- n)%Z).
  { apply Qfloor_unique.
    - rewrite inject_Z_opp. lra.
    - rewrite inject_Z_plus, inject_Z_opp. change (inject_Z 1) with 1. lra. }
  rewrite Hf. lia.
Qed.

(** On a negative tie [Math.round] is one above the half-away-from-zero
    rounding: it takes the value of smaller magnitude. *)
Lemma Math_round_negative_tie (x : Q) :
  x < 0 -> is_tie x -> Math_round x = (round_half_away x + 1)%Z.
Proof.
  intros Hneg [n Hn]. unfold round_half_away, Math_round.
  assert (E : Qle_bool 0 x = false) by (apply Qle_bool_false; exact Hneg).
  rewrite E. unfold Qceiling.
  assert (H1 : Qfloor (x + 0.5) = n).
  { rewrite (Qfloor_comp _ _ Hn). apply Qfloor_Z. }
  assert (H2 : Qfloor (- (x - 0.5)) = (1 - n)%Z).
  { assert (Heq : - (x - 0.5) == inject_Z (1 - n)).
    { unfold Z.sub. rewrite inject_Z_plus, inject_Z_opp.
      change (inject_Z 1) with 1. lra. }
    rewrite (Qfloor_comp _ _ Heq). apply Qfloor_Z. }
  rewrite H1, H2. lia.
Qed.

(** ** The estimator *)

(** After the guard on the distance, a lookup is an interpolation of the
    resolved curve at the distance in the unit of that curve. *)
Lemma getExpectedStrokes_positive (B : Baseline) (lie : Lie) (d : Q) :
  0 < d ->
  getExpectedStrokes B lie (Fin d)
  = match B (lookupLie lie) with
    | None => None
    | Some points =>
        if (length points =? 0)%nat then None
        else interpolate points (nativeDistance lie d)
    end.
Proof.
  intros Hd. apply Qle_bool_false in Hd.
  unfold getExpectedStrokes. rewrite Hd. destruct lie; reflexivity.
Qed.

Lemma getExpectedStrokes_nonpositive (B : Baseline) (lie : Lie) (x : number) :
  ~ finite_positive x -> getExpectedStrokes B lie x = Some 0.
Proof.
  destruct x as [q| | |]; try reflexivity.
  cbn [finite_positive]. intros H. apply Qnot_lt_le in H.
  apply Qle_bool_iff in H. unfold getExpectedStrokes. rewrite H. reflexivity.
Qed.

Lemma PGA_BASELINE_resolved (lie : Lie) :
  exists first rest, PGA_BASELINE (lookupLie lie) = Some (first :: rest).
Proof. destruct lie; eexists; eexists; reflexivity. Qed.

Lemma getExpectedStrokes_PGA_total (lie : Lie) (x : number) :
  exists v, getExpectedStrokes PGA_BASELINE lie x = Some v.
Proof.
  destruct x as [d| | |]; try (exists 0; reflexivity).
  destruct (Qlt_le_dec 0 d) as [Hd|Hd].
  - rewrite (getExpectedStrokes_positive _ _ _ Hd).
    destruct (PGA_BASELINE_resolved lie) as (first & rest & ->).
    cbn [length Nat.eqb]. apply interpolate_total. discriminate.
  - exists 0. apply getExpectedStrokes_nonpositive.
    cbn [finite_positive]. apply Qle_not_lt, Hd.
Qed.

Lemma nativeDistance_mono (lie : Lie) (d1 d2 : Q) :
  d1 <= d2 -> nativeDistance lie d1 <= nativeDistance lie d2.
Proof.
  intros H. unfold nativeDistance, FEET_PER_METER, METERS_PER_YARD.
  destruct lie; try (apply Qmult_le_compat_r; [exact H|discriminate]).
Qed.

(** On a resolved curve that is well formed, the estimator is
    non-decreasing over the positive distances. *)
Lemma getExpectedStrokes_mono (B : Baseline) (lie : Lie) (points : Table)
  (d1 d2 : Q) :
  B (lookupLie lie) = Some points -> points <> [] ->
  well_formed_curve points ->
  0 < d1 -> d1 <= d2 ->
  strokes_le (getExpectedStrokes B lie (Fin d1))
             (getExpectedStrokes B lie (Fin d2)).
Proof.
  intros HB Hne Hwf Hd1 Hle.
  assert (Hd2 : 0 < d2) by (apply Qlt_le_trans with d1; assumption).
  rewrite !getExpectedStrokes_positive, HB by assumption.
  destruct points as [|first rest]; [congruence|]. cbn [length Nat.eqb].
  destruct (interpolate_total (first :: rest) (nativeDistance lie d1) Hne)
    as [v1 H1].
  destruct (interpolate_total (first :: rest) (nativeDistance lie d2) Hne)
    as [v2 H2].
  rewrite H1, H2. cbn [strokes_le].
  apply (interpolate_mono _ _ _ _ _ Hwf (nativeDistance_mono lie _ _ Hle) H1 H2).
Qed.

Lemma nativeDistance_positive (lie : Lie) (d : Q) :
  0 < nativeDistance lie d -> 0 < d.
Proof.
  intros H.
  destruct (Qlt_le_dec 0 d) as [Hd|Hd]; [exact Hd|exfalso].
  assert (Hn : nativeDistance lie d <= nativeDistance lie 0)
    by (apply nativeDistance_mono, Hd).
  assert (H0 : nativeDistance lie 0 == 0) by (destruct lie; reflexivity).
  rewrite H0 in Hn. apply (Qlt_not_le _ _ H Hn).
Qed.

Lemma in_curve_range_first (B : Baseline) (lie : Lie) (d : Q)
  (first : Q * Q) (rest : Table) :
  B (lookupLie lie) = Some (first :: rest) ->
  in_curve_range B lie d -> fst first <= nativeDistance lie d.
Proof. unfold in_curve_range. intros ->. tauto. Qed.

Lemma monotone_on_curve (B : Baseline) (lie : Lie) (first : Q * Q)
  (rest : Table) :
  B (lookupLie lie) = Some (first :: rest) ->
  well_formed_curve (first :: rest) -> 0 < fst first ->
  monotone_on_range B lie.
Proof.
  intros HB Hwf Hpos d1 d2 Hr1 _ Hle.
  apply (getExpectedStrokes_mono B lie (first :: rest)); auto; [discriminate|].
  apply (nativeDistance_positive lie).
  apply Qlt_le_trans with (fst first); [exact Hpos|].
  apply (in_curve_range_first B lie d1 first rest HB Hr1).
Qed.

(** On a curve in strictly increasing distance the last control point is
    not before the first. *)
Lemma distance_last (p : Q * Q) (rest : Table) :
  increasing_distance (p :: rest) = true -> rest <> [] ->
  fst p < fst (List.last (p :: rest) p).
Proof.
  revert p. induction rest as [|p1 rest' IH]; intros p Hinc Hne;
    [congruence|].
  cbn [increasing_distance] in Hinc.
  apply andb_true_iff in Hinc as [Hd Hinc].
  apply negb_true_iff, Qle_bool_false in Hd.
  rewrite last_cons_default by discriminate.
  rewrite (last_default_irrelevant _ p p1) by discriminate.
  destruct rest' as [|p2 rest'']; [exact Hd|].
  apply Qlt_trans with (fst p1); [exact Hd|].
  apply IH; [exact Hinc|discriminate].
Qed.

(** * The claims *)

(** ** C1 *)

(** The run-time functions are the typed ones on a shot whose lies are
    among the seven names. *)
Lemma runtime_agrees (B : Baseline) (shot : Shot) :
  calculateStrokesGainedRT B (runtimeOf shot) = calculateStrokesGained B shot /\
  categorizeShotRT (runtimeOf shot) = categorizeShot shot.
Proof. split; reflexivity. Qed.




(** ** C2 *)

(** C2, as stated, fails: the tee shot from 50 yards into the rough at
    35 yards has expected strokes 2.92 and 2.7325, so raw is -0.8125 and
    [1000 * raw] is the tie -812.5; the code returns -0.812, the
    half-away-from-zero rounding is -0.813. *)
Lemma half_away_rounding_counterexample :
  isValid (calculateStrokesGained PGA_BASELINE teeShot50) = true /\
  (exists eStart eEnd v,
     expectedStart PGA_BASELINE teeShot50 = Some eStart /\
     expectedEnd PGA_BASELINE teeShot50 = Some eEnd /\
     sg (calculateStrokesGained PGA_BASELINE teeShot50) = Some v /\
     eStart == 2.92 /\ eEnd == 2.7325 /\ strokesUsed teeShot50 == 1 /\
     (eStart - eEnd - strokesUsed teeShot50) * 1000 == -812.5 /\
     v == -0.812 /\
     round3_half_away (eStart - eEnd - strokesUsed teeShot50) == -0.813) /\
  ~ sg_rounds_half_away PGA_BASELINE teeShot50.
Proof.
  split; [reflexivity|]. split.
  { do 3 eexists. repeat split; reflexivity. }
  intros H.
  unfold sg_rounds_half_away in H.
  destruct (expectedStart PGA_BASELINE teeShot50) as [eS|] eqn:HS;
    [|discriminate HS].
  destruct (expectedEnd PGA_BASELINE teeShot50) as [eE|] eqn:HE;
    [|discriminate HE].
  destruct (sg (calculateStrokesGained PGA_BASELINE teeShot50)) as [v|] eqn:HV;
    [|discriminate HV].
  specialize (H eS eE v eq_refl eq_refl eq_refl).
  vm_compute in HS, HE, HV.
  injection HS as <-. injection HE as <-. injection HV as <-.
  vm_compute in H. discriminate H.
Qed.

(** C2 (amended): for every shot whose result is valid, [sg] is
    [n / 1000] for the integer [n] nearest to [1000 * rawSG], a tie going
    towards plus infinity ([Math.round]).  This is the half-away-from-zero
    rounding whenever rawSG is non-negative or [1000 * rawSG] is not a
    tie; on a negative tie it is the neighbour of smaller magnitude. *)
Theorem sg_rounds_half_up (B : Baseline) (shot : Shot) :
  isValid (calculateStrokesGained B shot) = true ->
  exists eStart eEnd n,
    expectedStart B shot = Some eStart /\
    expectedEnd B shot = Some eEnd /\
    let raw := eStart - eEnd - strokesUsed shot in
    sg (calculateStrokesGained B shot) = Some (inject_Z n / 1000) /\
    raw * 1000 - 0.5 < inject_Z n /\ inject_Z n <= raw * 1000 + 0.5 /\
    (0 <= raw \/ ~ is_tie (raw * 1000) ->
       n = round_half_away (raw * 1000)) /\
    (raw < 0 -> is_tie (raw * 1000) ->
       n = (round_half_away (raw * 1000) + 1)%Z).
Proof.
  unfold calculateStrokesGained.
  destruct (expectedStart B shot) as [eS|], (expectedEnd B shot) as [eE|];
    cbn [isValid sg]; intros H; try discriminate H.
  exists eS, eE, (Math_round ((eS - eE - strokesUsed shot) * 1000)).
  set (raw := eS - eE - strokesUsed shot).
  destruct (Math_round_nearest (raw * 1000)) as [Hlo Hhi].
  repeat split; auto.
  - intros [Hr|Hr]; apply Math_round_half_away; [left; lra|right; exact Hr].
  - intros Hneg Htie. apply Math_round_negative_tie; [lra|exact Htie].
Qed.

Lemma sg_rounds_half_up_witness :
  exists eStart eEnd n,
    expectedStart PGA_BASELINE teeShot50 = Some eStart /\
    expectedEnd PGA_BASELINE teeShot50 = Some eEnd /\
    let raw := eStart - eEnd - strokesUsed teeShot50 in
    sg (calculateStrokesGained PGA_BASELINE teeShot50)
    = Some (inject_Z n / 1000) /\
    raw * 1000 - 0.5 < inject_Z n /\ inject_Z n <= raw * 1000 + 0.5 /\
    (0 <= raw \/ ~ is_tie (raw * 1000) ->
       n = round_half_away (raw * 1000)) /\
    (raw < 0 -> is_tie (raw * 1000) ->
       n = (round_half_away (raw * 1000) + 1)%Z).
Proof.
  apply (sg_rounds_half_up PGA_BASELINE teeShot50). reflexivity.
Defined.

(** ** C3 *)

(** C3, as stated, fails on the shipped table: on the TEE curve the
    estimate at 120 yards (109.728 m) is 2.99 and at 140 yards
    (128.016 m) it is 2.97. *)
Lemma TEE_not_monotone : ~ monotone_on_range PGA_BASELINE TEE.
Proof.
  intros H. specialize (H 109.728 128.016).
  assert (Hr1 : in_curve_range PGA_BASELINE TEE 109.728)
    by (vm_compute; split; discriminate).
  assert (Hr2 : in_curve_range PGA_BASELINE TEE 128.016)
    by (vm_compute; split; discriminate).
  assert (Hle : 109.728 <= 128.016) by discriminate.
  specialize (H Hr1 Hr2 Hle). vm_compute in H. apply H. reflexivity.
Qed.

(** The BUNKER and RECOVERY curves dip as well. *)
Lemma BUNKER_not_monotone : ~ monotone_on_range PGA_BASELINE BUNKER.
Proof.
  intros H. specialize (H 73.152 91.44).
  assert (Hr1 : in_curve_range PGA_BASELINE BUNKER 73.152)
    by (vm_compute; split; discriminate).
  assert (Hr2 : in_curve_range PGA_BASELINE BUNKER 91.44)
    by (vm_compute; split; discriminate).
  assert (Hle : 73.152 <= 91.44) by discriminate.
  specialize (H Hr1 Hr2 Hle). vm_compute in H. apply H. reflexivity.
Qed.

Lemma RECOVERY_not_monotone : ~ monotone_on_range PGA_BASELINE RECOVERY.
Proof.
  intros H. specialize (H 91.44 109.728).
  assert (Hr1 : in_curve_range PGA_BASELINE RECOVERY 91.44)
    by (vm_compute; split; discriminate).
  assert (Hr2 : in_curve_range PGA_BASELINE RECOVERY 109.728)
    by (vm_compute; split; discriminate).
  assert (Hle : 91.44 <= 109.728) by discriminate.
  specialize (H Hr1 Hr2 Hle). vm_compute in H. apply H. reflexivity.
Qed.

(** C3 (amended): for the lies FAIRWAY, ROUGH and GREEN, and for FRINGE
    (read through the FAIRWAY curve), the estimate is available and
    non-decreasing in the distance over the range between the first and
    the last control point of the curve. *)
Theorem expectedStrokes_monotone (lie : Lie) (d1 d2 : Q) :
  In lie [FAIRWAY; ROUGH; GREEN; FRINGE] ->
  in_curve_range PGA_BASELINE lie d1 ->
  in_curve_range PGA_BASELINE lie d2 ->
  d1 <= d2 ->
  strokes_le (getExpectedStrokes PGA_BASELINE lie (Fin d1))
             (getExpectedStrokes PGA_BASELINE lie (Fin d2)).
Proof.
  intros Hin. revert d1 d2. fold (monotone_on_range PGA_BASELINE lie).
  cbn [In] in Hin.
  destruct Hin as [<-|[<-|[<-|[<-|[]]]]].
  - apply (monotone_on_curve _ _ (20, 2.4) (tl Curves.FAIRWAY));
      [reflexivity | split; vm_compute; reflexivity | reflexivity].
  - apply (monotone_on_curve _ _ (20, 2.59) (tl Curves.ROUGH));
      [reflexivity | split; vm_compute; reflexivity | reflexivity].
  - apply (monotone_on_curve _ _ (3, 1.04) (tl Curves.GREEN));
      [reflexivity | split; vm_compute; reflexivity | reflexivity].
  - apply (monotone_on_curve _ _ (20, 2.4) (tl Curves.FAIRWAY));
      [reflexivity | split; vm_compute; reflexivity | reflexivity].
Qed.

Lemma expectedStrokes_monotone_witness :
  strokes_le (getExpectedStrokes PGA_BASELINE GREEN (Fin 3))
             (getExpectedStrokes PGA_BASELINE GREEN (Fin 6)).
Proof.
  apply (expectedStrokes_monotone GREEN 3 6).
  - simpl. auto.
  - vm_compute. split; discriminate.
  - vm_compute. split; discriminate.
  - discriminate.
Defined.

(** ** C4 *)

(** C4: when both lookups are available the result is valid, carries the
    category of the categoriser, and [sg] is
    [expectedStart - expectedEnd - strokesUsed] rounded to three decimals:
    it is [n / 1000] for an integer [n] at most one half away from
    [1000 * raw], where [strokesUsed] is [putts + penaltyStrokes] for a
    GREEN start with putts recorded and [1 + penaltyStrokes] otherwise. *)
Theorem calculateStrokesGained_valid (B : Baseline) (shot : Shot)
  (eStart eEnd : Q) :
  expectedStart B shot = Some eStart ->
  expectedEnd B shot = Some eEnd ->
  isValid (calculateStrokesGained B shot) = true /\
  category (calculateStrokesGained B shot) = categorizeShot shot /\
  exists n : Z,
    sg (calculateStrokesGained B shot) = Some (inject_Z n / 1000) /\
    (forall p, startLie shot = GREEN -> putts shot = Some p ->
       let raw := eStart - eEnd - (p + penaltyStrokes shot) in
       raw * 1000 - 0.5 <= inject_Z n /\ inject_Z n <= raw * 1000 + 0.5) /\
    (startLie shot <> GREEN \/ putts shot = None ->
       let raw := eStart - eEnd - (1 + penaltyStrokes shot) in
       raw * 1000 - 0.5 <= inject_Z n /\ inject_Z n <= raw * 1000 + 0.5).
Proof.
  intros HS HE. unfold calculateStrokesGained. rewrite HS, HE.
  cbn [isValid category sg]. split; [reflexivity|]. split; [reflexivity|].
  exists (Math_round ((eStart - eEnd - strokesUsed shot) * 1000)).
  split; [reflexivity|].
  destruct (Math_round_nearest ((eStart - eEnd - strokesUsed shot) * 1000))
    as [Hlo Hhi].
  split.
  - intros p Hl Hp. cbv zeta.
    assert (E : strokesUsed shot = p + penaltyStrokes shot)
      by (unfold strokesUsed; rewrite Hl, Hp; reflexivity).
    rewrite <- E. split; [apply Qlt_le_weak, Hlo|exact Hhi].
  - intros Hcase. cbv zeta.
    assert (E : strokesUsed shot = 1 + penaltyStrokes shot).
    { unfold strokesUsed. destruct Hcase as [Hl|Hp].
      - destruct (Lie_eqb (startLie shot) GREEN) eqn:El; [|reflexivity].
        apply Lie_eqb_eq in El. contradiction.
      - rewrite Hp. destruct (Lie_eqb (startLie shot) GREEN); reflexivity. }
    rewrite <- E. split; [apply Qlt_le_weak, Hlo|exact Hhi].
Qed.

Lemma calculateStrokesGained_valid_witness :
  let eStart := lerp (9, 1.56) (10, 1.61) (3 * FEET_PER_METER) in
  isValid (calculateStrokesGained PGA_BASELINE holedPutt) = true /\
  category (calculateStrokesGained PGA_BASELINE holedPutt)
  = categorizeShot holedPutt /\
  exists n : Z,
    sg (calculateStrokesGained PGA_BASELINE holedPutt)
    = Some (inject_Z n / 1000) /\
    (forall p, startLie holedPutt = GREEN -> putts holedPutt = Some p ->
       let raw := eStart - 0 - (p + penaltyStrokes holedPutt) in
       raw * 1000 - 0.5 <= inject_Z n /\ inject_Z n <= raw * 1000 + 0.5) /\
    (startLie holedPutt <> GREEN \/ putts holedPutt = None ->
       let raw := eStart - 0 - (1 + penaltyStrokes holedPutt) in
       raw * 1000 - 0.5 <= inject_Z n /\ inject_Z n <= raw * 1000 + 0.5).
Proof.
  intros eStart.
  apply (calculateStrokesGained_valid PGA_BASELINE holedPutt); reflexivity.
Defined.

(** ** C5 *)

(** C5: on a non-empty resolved curve and a positive finite distance, the
    estimator converts metres to the unit of the curve (feet, factor
    3.28084, for GREEN; yards, division by 0.9144, otherwise) and returns
    the first value at or below the first control point, the last value
    at or beyond the last one, and otherwise the linear interpolation on
    the lowest-indexed pair that brackets the distance.  The clamps are
    tested in this order; on a curve in strictly increasing distance the
    high clamp needs no side condition. *)
Theorem getExpectedStrokes_interpolates (B : Baseline) (lie : Lie) (d : Q)
  (first : Q * Q) (rest : Table) :
  0 < d ->
  B (lookupLie lie) = Some (first :: rest) ->
  let points := first :: rest in
  let last := List.last points first in
  let x := nativeDistance lie d in
  let r := getExpectedStrokes B lie (Fin d) in
  (lie = GREEN -> x = d * 3.28084) /\
  (lie <> GREEN -> x = d / 0.9144) /\
  (x <= fst first -> r = Some (snd first)) /\
  (fst first < x -> fst last <= x -> r = Some (snd last)) /\
  (increasing_distance points = true -> fst last <= x ->
     r = Some (snd last)) /\
  (fst first < x -> x < fst last ->
     exists i p0 p1,
       first_bracketing points x i p0 p1 /\
       r = Some (snd p0
                 + (x - fst p0) / (fst p1 - fst p0) * (snd p1 - snd p0))).
Proof.
  intros Hd HB points last x r.
  assert (Hr : r = interpolate points x).
  { unfold r. rewrite (getExpectedStrokes_positive B lie d Hd), HB.
    reflexivity. }
  destruct (interpolate_cases first rest x) as (Hlow & Hhigh & Hmid).
  fold points in Hlow, Hhigh, Hmid. fold last in Hhigh, Hmid.
  rewrite Hr. repeat split.
  - intros ->. reflexivity.
  - intros Hl. unfold x. destruct lie; try reflexivity. congruence.
  - exact Hlow.
  - exact Hhigh.
  - intros Hinc Hx.
    destruct (Qlt_le_dec (fst first) x) as [Hf|Hf]; [auto|].
    rewrite (Hlow Hf).
    destruct rest as [|p1 rest']; [reflexivity|].
    exfalso.
    assert (Hl : fst first < fst last)
      by (apply distance_last; [exact Hinc|discriminate]).
    apply (Qlt_irrefl (fst first)).
    apply Qlt_le_trans with (fst last); [exact Hl|].
    apply Qle_trans with x; assumption.
  - exact Hmid.
Qed.

Lemma getExpectedStrokes_interpolates_witness :
  let points := Curves.TEE in
  let last := (600, 4.82) in
  let x := nativeDistance TEE 92.3544 in
  let r := getExpectedStrokes PGA_BASELINE TEE (Fin 92.3544) in
  (TEE = GREEN -> x = 92.3544 * 3.28084) /\
  (TEE <> GREEN -> x = 92.3544 / 0.9144) /\
  (x <= 100 -> r = Some 2.92) /\
  (100 < x -> fst last <= x -> r = Some (snd last)) /\
  (increasing_distance points = true -> fst last <= x ->
     r = Some (snd last)) /\
  (100 < x -> x < fst last ->
     exists i p0 p1,
       first_bracketing points x i p0 p1 /\
       r = Some (snd p0
                 + (x - fst p0) / (fst p1 - fst p0) * (snd p1 - snd p0))).
Proof.
  apply (getExpectedStrokes_interpolates PGA_BASELINE TEE 92.3544
           (100, 2.92) (tl Curves.TEE)); reflexivity.
Defined.

(** ** C6 *)

(** C6: a distance that is not a finite positive number (NaN, an
    infinity, zero or negative) yields exactly 0 for every lie and every
    baseline, also one whose curves are empty or missing. *)
Theorem getExpectedStrokes_degenerate (B : Baseline) (lie : Lie) (x : number) :
  ~ finite_positive x -> getExpectedStrokes B lie x = Some 0.
Proof. apply getExpectedStrokes_nonpositive. Qed.

Lemma getExpectedStrokes_degenerate_witness :
  getExpectedStrokes (fun _ => None) GREEN NaN = Some 0 /\
  getExpectedStrokes (fun _ => Some []) TEE (Fin (-5)) = Some 0.
Proof.
  split.
  - apply (getExpectedStrokes_degenerate (fun _ => None) GREEN NaN).
    simpl. auto.
  - apply (getExpectedStrokes_degenerate (fun _ => Some []) TEE (Fin (-5))).
    simpl. discriminate.
Defined.

(** ** C7 *)

(** C7: for a shot that ends on the green at distance 0, or that starts
    on the green with putts recorded, [expectedEnd] is 0 under every
    baseline, so the end curve is not read: two baselines that give the
    same start estimate give the same result. *)
Theorem holed_expectedEnd_zero (B : Baseline) (shot : Shot) :
  (endLie shot = GREEN /\ is_zero (endDistance shot)) \/
  (startLie shot = GREEN /\ putts shot <> None) ->
  isHoled shot = true /\
  expectedEnd B shot = Some 0 /\
  forall B', expectedStart B' shot = expectedStart B shot ->
    calculateStrokesGained B' shot = calculateStrokesGained B shot.
Proof.
  intros H.
  assert (Hh : isHoled shot = true).
  { unfold isHoled. apply orb_true_iff.
    destruct H as [[Hl Hz]|[Hl Hp]]; [left|right]; rewrite Hl; cbn.
    - destruct (endDistance shot) as [q| | |]; cbn in Hz |- *; try contradiction.
      apply Qeq_bool_iff, Hz.
    - unfold hasPutts. destruct (putts shot); [reflexivity|congruence]. }
  split; [exact Hh|]. split.
  - unfold expectedEnd. rewrite Hh. reflexivity.
  - intros B' HS. unfold calculateStrokesGained, expectedEnd.
    rewrite Hh, HS. reflexivity.
Qed.

Lemma holed_expectedEnd_zero_witness :
  isHoled holedPutt = true /\
  expectedEnd (fun _ => None) holedPutt = Some 0 /\
  forall B', expectedStart B' holedPutt = expectedStart (fun _ => None) holedPutt ->
    calculateStrokesGained B' holedPutt
    = calculateStrokesGained (fun _ => None) holedPutt.
Proof.
  apply (holed_expectedEnd_zero (fun _ => None) holedPutt).
  left. split; [reflexivity|]. simpl. reflexivity.
Defined.

(** ** C8 *)

(** C8: a FRINGE lookup is the FAIRWAY lookup, for every baseline and
    every distance, while a shot that starts on the fringe is always ARG;
    the same shot started from the fairway, more than 30 m out, is APP. *)
Theorem fringe_alias (B : Baseline) (d : number) (shot : Shot) :
  startLie shot = FRINGE ->
  getExpectedStrokes B FRINGE d = getExpectedStrokes B FAIRWAY d /\
  getExpectedStrokes B (startLie shot) d = getExpectedStrokes B FAIRWAY d /\
  categorizeShot shot = ARG /\
  (forall q, startDistance shot = Fin q -> 30 < q ->
     categorizeShot (withStartLie FAIRWAY shot) = APP).
Proof.
  intros Hl. rewrite Hl. repeat split.
  - unfold categorizeShot. rewrite Hl. reflexivity.
  - intros q Hq Hlt. unfold categorizeShot, withStartLie.
    cbn [startLie startDistance Lie_eqb orb]. rewrite Hq. cbn [num_leb].
    apply Qle_bool_false in Hlt. rewrite Hlt. reflexivity.
Qed.

Lemma fringe_alias_witness :
  getExpectedStrokes PGA_BASELINE FRINGE (Fin 40)
  = getExpectedStrokes PGA_BASELINE FAIRWAY (Fin 40) /\
  getExpectedStrokes PGA_BASELINE (startLie fringeChip) (Fin 40)
  = getExpectedStrokes PGA_BASELINE FAIRWAY (Fin 40) /\
  categorizeShot fringeChip = ARG /\
  (forall q, startDistance fringeChip = Fin q -> 30 < q ->
     categorizeShot (withStartLie FAIRWAY fringeChip) = APP).
Proof.
  apply (fringe_alias PGA_BASELINE (Fin 40) fringeChip). reflexivity.
Defined.

(** ** C9 *)

(** C9: the shipped table is complete; with it the estimator returns a
    number for every lie and every distance, and every shot gets a valid
    result with a numeric [sg]. *)
Theorem PGA_BASELINE_always_valid :
  baselineIsComplete PGA_BASELINE = true /\
  (forall lie x, exists v, getExpectedStrokes PGA_BASELINE lie x = Some v) /\
  (forall shot,
     isValid (calculateStrokesGained PGA_BASELINE shot) = true /\
     exists v, sg (calculateStrokesGained PGA_BASELINE shot) = Some v).
Proof.
  split; [reflexivity|]. split; [exact getExpectedStrokes_PGA_total|].
  intros shot. unfold calculateStrokesGained, expectedStart, expectedEnd.
  destruct (getExpectedStrokes_PGA_total (startLie shot) (startDistance shot))
    as [eS ->].
  destruct (isHoled shot).
  - cbn. eauto.
  - destruct (getExpectedStrokes_PGA_total (endLie shot) (endDistance shot))
      as [eE ->].
    cbn. eauto.
Qed.

(** ** C10 *)

(** C10: over an empty list of rounds the aggregate is defined: every
    average (OTT, APP, ARG, PUTT, TOTAL) is 0, and best and worst are 0. *)
Theorem aggregate_empty :
  aggregate [] = mkAggregate (mkTotals 0 0 0 0 0) (Fin 0) (Fin 0) /\
  (forall B, aggregate (roundsWithTotals B [])
             = mkAggregate (mkTotals 0 0 0 0 0) (Fin 0) (Fin 0)).
Proof. split; [|intros B]; reflexivity. Qed.

(** * Further properties of the estimator *)

(** Below the lowest bracketing pair every control point lies strictly
    before the distance, once the first one does. *)
Lemma first_bracketing_strict (first : Q * Q) (rest : Table) (x : Q)
  (i : nat) (p0 p1 : Q * Q) :
  fst first < x ->
  first_bracketing (first :: rest) x i p0 p1 ->
  fst p0 < x.
Proof.
  intros Hfirst (Hn0 & _ & _ & _ & Hmin).
  assert (Hall : forall k q, (k <= i)%nat ->
            nth_error (first :: rest) k = Some q -> fst q < x).
  { induction k as [|k IH]; intros q Hk Hq.
    - cbn in Hq. injection Hq as <-. exact Hfirst.
    - destruct (nth_error (first :: rest) k) as [q'|] eqn:Hq'.
      + assert (Hlt : fst q' < x) by (apply IH; [lia|reflexivity]).
        apply Qnot_le_lt. intros Hle.
        apply (Hmin k q' q); [lia|exact Hq'|exact Hq|].
        split; [apply Qlt_le_weak, Hlt|exact Hle].
      + exfalso. apply nth_error_None in Hq'.
        assert (Hsome : nth_error (first :: rest) (S k) <> None) by congruence.
        apply nth_error_Some in Hsome. lia. }
  apply (Hall i p0); [lia|exact Hn0].
Qed.

(** On a proper segment the interpolated value lies between the strokes
    of the two ends, whichever is larger. *)
Lemma lerp_between (p0 p1 : Q * Q) (x : Q) :
  fst p0 < x -> x <= fst p1 ->
  (snd p0 <= lerp p0 p1 x /\ lerp p0 p1 x <= snd p1) \/
  (snd p1 <= lerp p0 p1 x /\ lerp p0 p1 x <= snd p0).
Proof.
  destruct p0 as [d0 s0], p1 as [d1 s1]. cbn [fst snd lerp].
  intros Hlo Hhi.
  assert (Hd : d0 < d1) by (apply Qlt_le_trans with x; assumption).
  assert (Hk : 0 < / (d1 - d0)) by (apply Qinv_lt_0_compat; lra).
  assert (Hone : (d1 - d0) * / (d1 - d0) == 1) by (apply Qmult_inv_r; lra).
  unfold Qdiv. set (k := / (d1 - d0)) in *.
  assert (Ht0 : 0 <= (x - d0) * k) by (apply Qmult_le_0_compat; lra).
  assert (Ht1 : (x - d0) * k <= 1).
  { rewrite <- Hone. apply Qmult_le_compat_r; lra. }
  set (t := (x - d0) * k) in *.
  destruct (Qlt_le_dec s1 s0) as [Hs|Hs]; [right|left]; split; nra.
Qed.

(** X1: whenever [interpolate] evaluates the segment formula, it does so
    on the lowest-indexed bracketing pair, and that pair has
    [d0 < distance <= d1]: the divisor [d1 - d0] is positive for every
    table, sorted or not, with or without repeated distances. *)
Theorem interpolate_divisor_positive (first : Q * Q) (rest : Table) (x : Q) :
  fst first < x ->
  x < fst (List.last (first :: rest) first) ->
  exists i p0 p1,
    first_bracketing (first :: rest) x i p0 p1 /\
    fst p0 < x /\ x <= fst p1 /\ 0 < fst p1 - fst p0 /\
    interpolate (first :: rest) x
    = Some (snd p0 + (x - fst p0) / (fst p1 - fst p0) * (snd p1 - snd p0)).
Proof.
  intros Hlo Hhi.
  destruct (interpolate_cases first rest x) as (_ & _ & Hmid).
  destruct (Hmid Hlo Hhi) as (i & p0 & p1 & Hfb & Hv).
  pose proof (first_bracketing_strict first rest x i p0 p1 Hlo Hfb) as Hp0.
  assert (Hp1 : x <= fst p1) by (destruct Hfb as (_ & _ & _ & H & _); exact H).
  exists i, p0, p1. repeat split; try assumption.
  - destruct Hfb as (H & _); exact H.
  - destruct Hfb as (_ & H & _); exact H.
  - destruct Hfb as (_ & _ & H & _); exact H.
  - destruct Hfb as (_ & _ & _ & _ & H); exact H.
  - assert (fst p0 < fst p1) by (apply Qlt_le_trans with x; assumption). lra.
Qed.

Lemma interpolate_divisor_positive_witness :
  exists i p0 p1,
    first_bracketing [(1, 2); (5, 3); (5, 4); (3, 1); (9, 6)] 5 i p0 p1 /\
    fst p0 < 5 /\ 5 <= fst p1 /\ 0 < fst p1 - fst p0 /\
    interpolate [(1, 2); (5, 3); (5, 4); (3, 1); (9, 6)] 5
    = Some (snd p0 + (5 - fst p0) / (fst p1 - fst p0) * (snd p1 - snd p0)).
Proof.
  apply (interpolate_divisor_positive (1, 2) [(5, 3); (5, 4); (3, 1); (9, 6)] 5);
    reflexivity.
Defined.

Lemma last_In (p : Q * Q) (rest : Table) :
  In (List.last (p :: rest) p) (p :: rest).
Proof.
  revert p. induction rest as [|p1 rest' IH]; intros p; [left; reflexivity|].
  right. rewrite last_cons_default by discriminate.
  rewrite (last_default_irrelevant _ p p1) by discriminate. apply IH.
Qed.

(** X2: the value returned by [interpolate] never leaves the range of the
    strokes of the table: it lies between the strokes of two control
    points, for every non-empty table and every distance. *)
Theorem interpolate_within_table (points : Table) (x v : Q) :
  interpolate points x = Some v ->
  exists p q, In p points /\ In q points /\ snd p <= v /\ v <= snd q.
Proof.
  destruct points as [|first rest]; [discriminate|]. intros Hv.
  destruct (interpolate_cases first rest x) as (Hlow & Hhigh & _).
  destruct (Qlt_le_dec (fst first) x) as [Hlo|Hlo].
  - destruct (Qlt_le_dec x (fst (List.last (first :: rest) first))) as [Hhi|Hhi].
    + destruct (interpolate_divisor_positive first rest x Hlo Hhi)
        as (i & p0 & p1 & Hfb & Hp0 & Hp1 & _ & Heq).
      rewrite Heq in Hv. injection Hv as <-.
      destruct Hfb as (Hn0 & Hn1 & _).
      apply nth_error_In in Hn0. apply nth_error_In in Hn1.
      rewrite <- lerp_formula.
      destruct (lerp_between p0 p1 x Hp0 Hp1) as [[H1 H2]|[H1 H2]].
      * exists p0, p1. auto.
      * exists p1, p0. auto.
    + rewrite (Hhigh Hlo Hhi) in Hv. injection Hv as <-.
      exists (List.last (first :: rest) first), (List.last (first :: rest) first).
      repeat split; try apply last_In; apply Qle_refl.
  - rewrite (Hlow Hlo) in Hv. injection Hv as <-.
    exists first, first. repeat split; try (left; reflexivity); apply Qle_refl.
Qed.

Lemma interpolate_within_table_witness :
  exists p q, In p Curves.GREEN /\ In q Curves.GREEN /\
              snd p <= lerp (10, 1.61) (15, 1.78) 10.2 /\
              lerp (10, 1.61) (15, 1.78) 10.2 <= snd q.
Proof.
  apply (interpolate_within_table Curves.GREEN 10.2). reflexivity.
Defined.

Lemma strokes_within_spec (lo hi : Q) (points : Table) (p : Q * Q) :
  strokes_within lo hi points = true -> In p points ->
  lo <= snd p /\ snd p <= hi.
Proof.
  unfold strokes_within. rewrite forallb_forall. intros H Hin.
  specialize (H p Hin). apply andb_true_iff in H as [H1 H2].
  split; apply Qle_bool_iff; assumption.
Qed.

(** X3: with the shipped table, from every lie and every positive finite
    distance, the estimate is available, at least 1.04 and at most 5.58
    strokes. *)
Theorem PGA_BASELINE_bounds (lie : Lie) (d : Q) :
  0 < d ->
  exists v, getExpectedStrokes PGA_BASELINE lie (Fin d) = Some v /\
            1.04 <= v /\ v <= 5.58.
Proof.
  intros Hd.
  destruct (getExpectedStrokes_PGA_total lie (Fin d)) as [v Hv].
  exists v. split; [exact Hv|].
  rewrite (getExpectedStrokes_positive _ _ _ Hd) in Hv.
  assert (Hw : exists points, PGA_BASELINE (lookupLie lie) = Some points /\
                 points <> [] /\ strokes_within 1.04 5.58 points = true).
  { destruct lie; eexists; (split; [reflexivity|]); split;
      try discriminate; vm_compute; reflexivity. }
  destruct Hw as (points & HB & Hne & Hw). rewrite HB in Hv.
  destruct points as [|first rest]; [congruence|]. cbn [length Nat.eqb] in Hv.
  destruct (interpolate_within_table _ _ _ Hv) as (p & q & Hp & Hq & H1 & H2).
  destruct (strokes_within_spec _ _ _ p Hw Hp) as [Hp1 _].
  destruct (strokes_within_spec _ _ _ q Hw Hq) as [_ Hq2].
  split; [apply Qle_trans with (snd p)|apply Qle_trans with (snd q)];
    assumption.
Qed.

Lemma PGA_BASELINE_bounds_witness :
  exists v, getExpectedStrokes PGA_BASELINE BUNKER (Fin 700) = Some v /\
            1.04 <= v /\ v <= 5.58.
Proof. apply (PGA_BASELINE_bounds BUNKER 700). reflexivity. Defined.

(** ** Control points *)

Lemma increasing_tail_gt (p : Q * Q) (rest : Table) (q : Q * Q) :
  increasing_distance (p :: rest) = true -> In q rest -> fst p < fst q.
Proof.
  revert p. induction rest as [|p1 rest' IH]; intros p Hinc Hin; [contradiction|].
  cbn [increasing_distance] in Hinc.
  apply andb_true_iff in Hinc as [Hd Hinc].
  apply negb_true_iff, Qle_bool_false in Hd.
  destruct Hin as [<-|Hin]; [exact Hd|].
  apply Qlt_trans with (fst p1); [exact Hd|]. apply IH; assumption.
Qed.

Lemma lerp_at_end (p0 p1 : Q * Q) :
  fst p0 < fst p1 -> lerp p0 p1 (fst p1) == snd p1.
Proof.
  destruct p0 as [d0 s0], p1 as [d1 s1]. cbn [fst snd lerp]. intros Hd.
  field. lra.
Qed.

Lemma scan_at_point (p : Q * Q) (rest : Table) (q : Q * Q) :
  increasing_distance (p :: rest) = true -> In q rest ->
  exists v, scan (p :: rest) (fst q) = Some v /\ v == snd q.
Proof.
  revert p. induction rest as [|p1 rest' IH]; intros p Hinc Hin; [contradiction|].
  pose proof Hinc as Hinc0.
  cbn [increasing_distance] in Hinc.
  apply andb_true_iff in Hinc as [Hd Hinc].
  apply negb_true_iff, Qle_bool_false in Hd.
  cbn [scan]. destruct Hin as [<-|Hin].
  - assert (Hb : brackets p p1 (fst p1) = true).
    { apply brackets_iff. split; [apply Qlt_le_weak, Hd|apply Qle_refl]. }
    rewrite Hb. eexists. split; [reflexivity|]. apply lerp_at_end, Hd.
  - assert (Hq : fst p1 < fst q) by (apply (increasing_tail_gt p1 rest'); assumption).
    assert (Hb : brackets p p1 (fst q) = false).
    { destruct (brackets p p1 (fst q)) eqn:E; [|reflexivity].
      apply brackets_iff in E as [_ E]. exfalso. apply (Qlt_not_le _ _ Hq E). }
    rewrite Hb. apply IH; assumption.
Qed.

Lemma in_last_or_before (p : Q * Q) (rest : Table) (q : Q * Q) :
  increasing_distance (p :: rest) = true -> In q (p :: rest) ->
  q = List.last (p :: rest) p \/ fst q < fst (List.last (p :: rest) p).
Proof.
  revert p. induction rest as [|p1 rest' IH]; intros p Hinc Hin.
  - destruct Hin as [<-|[]]. left. reflexivity.
  - rewrite last_cons_default by discriminate.
    rewrite (last_default_irrelevant _ p p1) by discriminate.
    destruct Hin as [<-|Hin].
    + right. apply (increasing_tail_gt p (p1 :: rest')); [exact Hinc|].
      apply last_In.
    + apply IH; [|exact Hin].
      cbn [increasing_distance] in Hinc.
      apply andb_true_iff in Hinc as [_ Hinc]. exact Hinc.
Qed.

(** X4: on a curve whose distances strictly increase, [interpolate]
    passes through every control point: at the distance of a point it
    returns the strokes of that point. *)
Theorem interpolate_at_control_point (points : Table) (p : Q * Q) :
  increasing_distance points = true -> In p points ->
  exists v, interpolate points (fst p) = Some v /\ v == snd p.
Proof.
  destruct points as [|first rest]; [contradiction|]. intros Hinc Hin.
  destruct (interpolate_cases first rest (fst p)) as (Hlow & Hhigh & _).
  destruct Hin as [<-|Hin].
  - rewrite (Hlow (Qle_refl _)). eexists. split; [reflexivity|apply Qeq_refl].
  - assert (Hlo : fst first < fst p) by (apply (increasing_tail_gt first rest); assumption).
    destruct (in_last_or_before first rest p Hinc (or_intror Hin)) as [Hl|Hl].
    + rewrite (Hhigh Hlo) by (rewrite <- Hl; apply Qle_refl).
      rewrite <- Hl. eexists. split; [reflexivity|apply Qeq_refl].
    + destruct (scan_at_point first rest p Hinc Hin) as (v & Hs & Hv).
      exists v. split; [|exact Hv].
      unfold interpolate.
      apply Qle_bool_false in Hlo. apply Qle_bool_false in Hl.
      rewrite Hlo, Hl, Hs. reflexivity.
Qed.

Lemma interpolate_at_control_point_witness :
  exists v, interpolate Curves.RECOVERY 120 = Some v /\ v == 3.78.
Proof.
  apply (interpolate_at_control_point Curves.RECOVERY (120, 3.78)).
  - vm_compute. reflexivity.
  - simpl. auto.
Defined.

(** ** Completeness of the baseline *)

Lemma usable_curve (c : option Table) :
  curve_unusable c = false -> exists first rest, c = Some (first :: rest).
Proof.
  destruct c as [[|first rest]|]; cbn; try discriminate. eauto.
Qed.

Lemma getExpectedStrokes_unusable (B : Baseline) (lie : Lie) :
  curve_unusable (B (lookupLie lie)) = true ->
  getExpectedStrokes B lie (Fin 1) = None.
Proof.
  intros H. rewrite getExpectedStrokes_positive by reflexivity.
  destruct (B (lookupLie lie)) as [[|first rest]|]; cbn in H |- *;
    try reflexivity; discriminate.
Qed.

Lemma getExpectedStrokes_usable (B : Baseline) (lie : Lie) (x : number) :
  curve_unusable (B (lookupLie lie)) = false ->
  exists v, getExpectedStrokes B lie x = Some v.
Proof.
  intros H. destruct (usable_curve _ H) as (first & rest & HB).
  destruct x as [d| | |]; try (exists 0; reflexivity).
  destruct (Qlt_le_dec 0 d) as [Hd|Hd].
  - rewrite (getExpectedStrokes_positive _ _ _ Hd), HB.
    cbn [length Nat.eqb]. apply interpolate_total. discriminate.
  - exists 0. apply getExpectedStrokes_nonpositive.
    cbn [finite_positive]. apply Qle_not_lt, Hd.
Qed.

(** X5: [baselineIsComplete] is exactly the condition under which no
    shot can be unratable: it holds if and only if
    [calculateStrokesGained] returns a valid result for every shot. *)
Theorem baselineIsComplete_iff_all_valid (B : Baseline) :
  baselineIsComplete B = true <->
  (forall shot, isValid (calculateStrokesGained B shot) = true).
Proof.
  unfold baselineIsComplete. split.
  - rewrite !andb_true_iff, !negb_true_iff.
    intros (((((HT & HF) & HR) & HB) & HC) & HG) shot.
    assert (Hall : forall lie x, exists v, getExpectedStrokes B lie x = Some v).
    { intros lie x. apply getExpectedStrokes_usable. destruct lie; assumption. }
    unfold calculateStrokesGained, expectedStart, expectedEnd.
    destruct (Hall (startLie shot) (startDistance shot)) as [eS ->].
    destruct (isHoled shot); [reflexivity|].
    destruct (Hall (endLie shot) (endDistance shot)) as [eE ->]. reflexivity.
  - intros Hall.
    assert (Hlie : forall lie, curve_unusable (B (lookupLie lie)) = false).
    { intros lie. destruct (curve_unusable (B (lookupLie lie))) eqn:E;
        [|reflexivity].
      specialize (Hall (mkShot 1 1 lie (Fin 1) GREEN (Fin 0) 0 None)).
      unfold calculateStrokesGained, expectedStart in Hall.
      cbn [startLie startDistance] in Hall.
      rewrite (getExpectedStrokes_unusable B lie E) in Hall. discriminate Hall. }
    pose proof (Hlie TEE) as HT. pose proof (Hlie FAIRWAY) as HF.
    pose proof (Hlie ROUGH) as HR. pose proof (Hlie BUNKER) as HB.
    pose proof (Hlie RECOVERY) as HC. pose proof (Hlie GREEN) as HG.
    cbn [lookupLie] in HT, HF, HR, HB, HC, HG.
    rewrite HT, HF, HR, HB, HC, HG. reflexivity.
Qed.

(** * Dashboard and summary page *)

Lemma fold_left_pointwise {A E : Type} (f g : A -> E -> A) :
  (forall a e, f a e = g a e) ->
  forall l a, fold_left f l a = fold_left g l a.
Proof.
  intros H l. induction l as [|e l IH]; intros a; [reflexivity|].
  cbn. rewrite H. apply IH.
Qed.

(** A result is valid exactly when it carries a number. *)
Lemma valid_iff_sg (B : Baseline) (shot : Shot) :
  (isValid (calculateStrokesGained B shot) = true /\
   exists v, sg (calculateStrokesGained B shot) = Some v) \/
  (isValid (calculateStrokesGained B shot) = false /\
   sg (calculateStrokesGained B shot) = None).
Proof.
  unfold calculateStrokesGained.
  destruct (expectedStart B shot), (expectedEnd B shot); cbn; eauto.
Qed.

(** The contribution of a shot to the totals: its [sg] when valid, and
    nothing otherwise. *)
Lemma addShot_total (base : Totals) (c : ShotCategory) (v : Q) :
  tot_TOTAL (addShot base c v) = tot_TOTAL base + v.
Proof. destruct c; reflexivity. Qed.

Lemma sumTotals_filter_from (B : Baseline) (shots : list Shot) (base : Totals) :
  fold_left
    (fun base shot =>
       let r := calculateStrokesGained B shot in
       match isValid r, sg r with
       | true, Some v => addShot base (category r) v
       | _, _ => base
       end)
    (filter (fun shot => isValid (calculateStrokesGained B shot)) shots) base
  = fold_left
      (fun base shot =>
         let r := calculateStrokesGained B shot in
         match isValid r, sg r with
         | true, Some v => addShot base (category r) v
         | _, _ => base
         end)
      shots base.
Proof.
  revert base. induction shots as [|shot shots IH]; intros base; [reflexivity|].
  cbn [filter fold_left].
  destruct (isValid (calculateStrokesGained B shot)) eqn:E.
  - cbn [fold_left]. rewrite E. apply IH.
  - apply IH.
Qed.

(** X8: the summary page and the dashboard compute the same totals, and
    an unratable shot contributes nothing: the totals are those of the
    valid shots alone. *)
Theorem totals_agree_and_skip_invalid (B : Baseline) (shots : list Shot) :
  summaryTotals B shots = sumTotals B shots /\
  sumTotals B shots
  = sumTotals B
      (filter (fun shot => isValid (calculateStrokesGained B shot)) shots).
Proof.
  split.
  - unfold summaryTotals, sumTotals. apply fold_left_pointwise.
    intros a shot. cbv zeta.
    destruct (valid_iff_sg B shot) as [[-> [v ->]]|[-> ->]]; reflexivity.
  - unfold sumTotals. symmetry. apply sumTotals_filter_from.
Qed.

(** ** The cross-round aggregate *)

Lemma Math_max_from (xs : list Q) (a : Q) :
  exists b,
    fold_left
      (fun acc x =>
         match acc with
         | Fin a => Fin (if Qle_bool a x then x else a)
         | _ => Fin x
         end) xs (Fin a) = Fin b /\
    a <= b /\ (forall x, In x xs -> x <= b) /\ (b = a \/ In b xs).
Proof.
  revert a. induction xs as [|x xs IH]; intros a.
  - exists a. cbn. repeat split; auto using Qle_refl. intros x [].
  - cbn [fold_left]. destruct (Qle_bool a x) eqn:E.
    + apply Qle_bool_iff in E.
      destruct (IH x) as (b & Hb & Hxb & Hall & Hin). exists b.
      split; [exact Hb|]. split; [apply Qle_trans with x; assumption|].
      split.
      * intros y [<-|Hy]; [exact Hxb|apply Hall, Hy].
      * right. destruct Hin as [->|Hin]; [left; reflexivity|right; exact Hin].
    + apply Qle_bool_false in E.
      destruct (IH a) as (b & Hb & Hab & Hall & Hin). exists b.
      split; [exact Hb|]. split; [exact Hab|]. split.
      * intros y [<-|Hy]; [|apply Hall, Hy].
        apply Qle_trans with a; [apply Qlt_le_weak, E|exact Hab].
      * destruct Hin as [->|Hin]; [left; reflexivity|right; right; exact Hin].
Qed.

Lemma Math_min_from (xs : list Q) (a : Q) :
  exists b,
    fold_left
      (fun acc x =>
         match acc with
         | Fin a => Fin (if Qle_bool x a then x else a)
         | _ => Fin x
         end) xs (Fin a) = Fin b /\
    b <= a /\ (forall x, In x xs -> b <= x) /\ (b = a \/ In b xs).
Proof.
  revert a. induction xs as [|x xs IH]; intros a.
  - exists a. cbn. repeat split; auto using Qle_refl. intros x [].
  - cbn [fold_left]. destruct (Qle_bool x a) eqn:E.
    + apply Qle_bool_iff in E.
      destruct (IH x) as (b & Hb & Hxb & Hall & Hin). exists b.
      split; [exact Hb|]. split; [apply Qle_trans with x; assumption|].
      split.
      * intros y [<-|Hy]; [exact Hxb|apply Hall, Hy].
      * right. destruct Hin as [->|Hin]; [left; reflexivity|right; exact Hin].
    + apply Qle_bool_false in E.
      destruct (IH a) as (b & Hb & Hab & Hall & Hin). exists b.
      split; [exact Hb|]. split; [exact Hab|]. split.
      * intros y [<-|Hy]; [|apply Hall, Hy].
        apply Qle_trans with a; [exact Hab|apply Qlt_le_weak, E].
      * destruct Hin as [->|Hin]; [left; reflexivity|right; right; exact Hin].
Qed.

(** On at least one argument [Math.max] and [Math.min] are finite, are
    one of the arguments, and bound them all. *)
Lemma Math_max_spec (xs : list Q) :
  xs <> [] ->
  exists b, Math_max xs = Fin b /\ In b xs /\ forall x, In x xs -> x <= b.
Proof.
  destruct xs as [|x xs]; [congruence|]. intros _.
  unfold Math_max. cbn [fold_left].
  destruct (Math_max_from xs x) as (b & Hb & Hxb & Hall & Hin).
  exists b. split; [exact Hb|]. split.
  - destruct Hin as [->|Hin]; [left; reflexivity|right; exact Hin].
  - intros y [<-|Hy]; [exact Hxb|apply Hall, Hy].
Qed.

Lemma Math_min_spec (xs : list Q) :
  xs <> [] ->
  exists b, Math_min xs = Fin b /\ In b xs /\ forall x, In x xs -> b <= x.
Proof.
  destruct xs as [|x xs]; [congruence|]. intros _.
  unfold Math_min. cbn [fold_left].
  destruct (Math_min_from xs x) as (b & Hb & Hxb & Hall & Hin).
  exists b. split; [exact Hb|]. split.
  - destruct Hin as [->|Hin]; [left; reflexivity|right; exact Hin].
  - intros y [<-|Hy]; [exact Hxb|apply Hall, Hy].
Qed.

Lemma aggregate_nonempty (l : list RoundWithTotals) :
  l <> [] ->
  aggregate l
  = let base :=
      fold_left (fun b item => addTotals b (totals item)) l zeroTotals in
    let count := inject_Z (Z.of_nat (length l)) in
    mkAggregate
      (mkTotals (tot_OTT base / count) (tot_APP base / count)
         (tot_ARG base / count) (tot_PUTT base / count)
         (tot_TOTAL base / count))
      (Math_max (map (fun r => tot_TOTAL (totals r)) l))
      (Math_min (map (fun r => tot_TOTAL (totals r)) l)).
Proof. destruct l; [congruence|reflexivity]. Qed.

(** X9: over at least one round, [best] and [worst] of the aggregate are
    finite, each is the TOTAL of one of the rounds, and the TOTAL of every
    round lies between them. *)
Theorem aggregate_best_worst (filteredRounds : list RoundWithTotals) :
  filteredRounds <> [] ->
  exists b w rb rw,
    best (aggregate filteredRounds) = Fin b /\
    worst (aggregate filteredRounds) = Fin w /\
    In rb filteredRounds /\ b = tot_TOTAL (totals rb) /\
    In rw filteredRounds /\ w = tot_TOTAL (totals rw) /\
    forall r, In r filteredRounds ->
      w <= tot_TOTAL (totals r) /\ tot_TOTAL (totals r) <= b.
Proof.
  intros Hne. rewrite (aggregate_nonempty _ Hne). cbn [best worst].
  set (ts := map (fun r => tot_TOTAL (totals r)) filteredRounds).
  assert (Hts : ts <> []).
  { unfold ts. destruct filteredRounds; [congruence|discriminate]. }
  destruct (Math_max_spec ts Hts) as (b & Hb & Hbin & Hball).
  destruct (Math_min_spec ts Hts) as (w & Hw & Hwin & Hwall).
  unfold ts in Hbin, Hwin. apply in_map_iff in Hbin as (rb & Hrb & Hrbin).
  apply in_map_iff in Hwin as (rw & Hrw & Hrwin).
  exists b, w, rb, rw. repeat split; auto.
  - apply Hwall. unfold ts. apply in_map_iff. eauto.
  - apply Hball. unfold ts. apply in_map_iff. eauto.
Qed.

Lemma aggregate_best_worst_witness :
  exists b w rb rw,
    let l := [ mkRWT (mkRound 1 10 []) (mkTotals 0 0 0 0 (-1.5));
               mkRWT (mkRound 2 20 []) (mkTotals 0 0 0 0 0.25) ] in
    best (aggregate l) = Fin b /\
    worst (aggregate l) = Fin w /\
    In rb l /\ b = tot_TOTAL (totals rb) /\
    In rw l /\ w = tot_TOTAL (totals rw) /\
    forall r, In r l ->
      w <= tot_TOTAL (totals r) /\ tot_TOTAL (totals r) <= b.
Proof.
  apply (aggregate_best_worst
           [ mkRWT (mkRound 1 10 []) (mkTotals 0 0 0 0 (-1.5));
             mkRWT (mkRound 2 20 []) (mkTotals 0 0 0 0 0.25) ]).
  discriminate.
Defined.

(** ** Weakness and key insight of the summary page *)

Lemma Qltb_true (x y : Q) : Qltb x y = true <-> x < y.
Proof. unfold Qltb. rewrite negb_true_iff. apply Qle_bool_false. Qed.

Lemma Qltb_false (x y : Q) : Qltb x y = false <-> y <= x.
Proof. unfold Qltb. rewrite negb_false_iff. apply Qle_bool_iff. Qed.

(** The loop that keeps the entry of least value, the earlier one on a
    tie. *)
Lemma least_entry {A : Type} (value : A -> Q) (l : list A) (first : A) :
  let r := fold_left
             (fun worst e => if Qltb (value e) (value worst) then e else worst)
             l first in
  (r = first \/ In r l) /\
  value r <= value first /\
  forall e, In e l -> value r <= value e.
Proof.
  revert first. induction l as [|e l IH]; intros first; cbn [fold_left].
  - repeat split; auto using Qle_refl. intros e [].
  - destruct (Qltb (value e) (value first)) eqn:E.
    + apply Qltb_true in E. destruct (IH e) as (Hin & Hle & Hall).
      repeat split.
      * right. destruct Hin as [->|Hin]; [left; reflexivity|right; exact Hin].
      * apply Qle_trans with (value e); [exact Hle|apply Qlt_le_weak, E].
      * intros e' [<-|He']; [exact Hle|apply Hall, He'].
    + apply Qltb_false in E. destruct (IH first) as (Hin & Hle & Hall).
      repeat split.
      * destruct Hin as [->|Hin]; [left; reflexivity|right; right; exact Hin].
      * exact Hle.
      * intros e' [<-|He']; [|apply Hall, He'].
        apply Qle_trans with (value first); assumption.
Qed.

(** X12: [weakness] is [null] exactly when no category total is
    negative; otherwise it is one of the four entries, its value is
    negative and no category total is below it. *)
Theorem weakness_least_negative (totals : Totals) :
  match weakness totals with
  | None =>
      0 <= tot_OTT totals /\ 0 <= tot_APP totals /\
      0 <= tot_ARG totals /\ 0 <= tot_PUTT totals
  | Some (label, v) =>
      In (label, v) (weaknessEntries totals) /\ v < 0 /\
      v <= tot_OTT totals /\ v <= tot_APP totals /\
      v <= tot_ARG totals /\ v <= tot_PUTT totals
  end.
Proof.
  unfold weakness.
  set (entries := weaknessEntries totals).
  set (negatives := filter (fun e => Qltb (snd e) 0) entries).
  assert (Hsplit : forall e, In e entries ->
            In e negatives \/ 0 <= snd e).
  { intros e He. destruct (Qltb (snd e) 0) eqn:E.
    - left. apply filter_In. auto.
    - right. apply Qltb_false, E. }
  assert (Hent : forall P : Q -> Prop,
            (forall e, In e entries -> P (snd e)) ->
            P (tot_OTT totals) /\ P (tot_APP totals) /\
            P (tot_ARG totals) /\ P (tot_PUTT totals)).
  { intros P HP. unfold entries, weaknessEntries in HP.
    repeat split;
      [ apply (HP ("Off the Tee"%string, tot_OTT totals))
      | apply (HP ("Approach"%string, tot_APP totals))
      | apply (HP ("Around the Green"%string, tot_ARG totals))
      | apply (HP ("Putting"%string, tot_PUTT totals)) ];
      cbn; auto 6. }
  destruct negatives as [|first rest] eqn:Hneg.
  - apply (Hent (fun t => 0 <= t)). intros e He.
    destruct (Hsplit e He) as [[]|H]. exact H.
  - pose proof (least_entry (@snd string Q) (first :: rest) first) as Hl.
    cbv zeta in Hl.
    set (r := fold_left _ (first :: rest) first) in *.
    destruct Hl as (Hin & _ & Hall).
    assert (Hr : In r negatives).
    { rewrite Hneg. destruct Hin as [->|Hin]; [left; reflexivity|exact Hin]. }
    unfold negatives in Hr. apply filter_In in Hr as [Hr1 Hr2].
    apply Qltb_true in Hr2.
    destruct r as [label v]. cbn [snd] in *.
    split; [exact Hr1|]. split; [exact Hr2|].
    apply (Hent (fun t => v <= t)). intros e He.
    destruct (Hsplit e He) as [H|H].
    + apply Hall. exact H.
    + apply Qle_trans with 0; [apply Qlt_le_weak, Hr2|exact H].
Qed.




(** ** Strokes taken and the sum over a hole *)

Lemma fold_left_sum {A : Type} (f : A -> Q) (l : list A) (acc : Q) :
  fold_left (fun sum a => sum + f a) l acc == acc + sumQ (map f l).
Proof.
  revert acc. induction l as [|a l IH]; intros acc.
  - cbn. ring.
  - cbn [fold_left map sumQ fold_right]. rewrite IH.
    fold (sumQ (map f l)). ring.
Qed.

Lemma strokesUsed_split (shot : Shot) :
  putts_on_green shot ->
  strokesUsed shot
  == match putts shot with Some p => p | None => 1 end + penaltyOrZero shot.
Proof.
  unfold putts_on_green, strokesUsed, penaltyOrZero. intros H.
  assert (Hp : (if Qeq_bool (penaltyStrokes shot) 0 then 0
                else penaltyStrokes shot) == penaltyStrokes shot).
  { destruct (Qeq_bool (penaltyStrokes shot) 0) eqn:E; [|reflexivity].
    apply Qeq_bool_iff in E. symmetry. exact E. }
  rewrite Hp. destruct (putts shot) as [p|].
  - rewrite H by discriminate. reflexivity.
  - destruct (Lie_eqb (startLie shot) GREEN); reflexivity.
Qed.

(** X14: when putts are recorded on shots from the green only, the
    adjusted score of the summary page (strokes plus penalties) is the
    sum, over the shots, of the strokes the calculator charges each
    shot. *)
Theorem adjustedScore_is_strokes_used (shots : list Shot) :
  Forall putts_on_green shots ->
  adjustedScore shots == sumQ (map strokesUsed shots).
Proof.
  intros Hall. unfold adjustedScore, totalStrokes, totalPenalties.
  rewrite (fold_left_sum
             (fun shot => match putts shot with Some p => p | None => 1 end)),
    (fold_left_sum penaltyOrZero).
  induction Hall as [|shot shots Hshot _ IH].
  - cbn. ring.
  - cbn [map sumQ fold_right].
    fold (sumQ (map strokesUsed shots)).
    fold (sumQ (map penaltyOrZero shots)).
    fold (sumQ (map (fun shot => match putts shot with
                                 | Some p => p | None => 1 end) shots)).
    rewrite (strokesUsed_split shot Hshot), <- IH. ring.
Qed.

Lemma adjustedScore_is_strokes_used_witness :
  adjustedScore [teeShot101; fringeChip; holedPutt]
  == sumQ (map strokesUsed [teeShot101; fringeChip; holedPutt]).
Proof.
  apply (adjustedScore_is_strokes_used [teeShot101; fringeChip; holedPutt]).
  repeat constructor; unfold putts_on_green; simpl; congruence.
Defined.

Lemma sumTotals_total_from (B : Baseline) (shots : list Shot) (t : Totals) :
  tot_TOTAL
    (fold_left
       (fun base shot =>
          let r := calculateStrokesGained B shot in
          match isValid r, sg r with
          | true, Some v => addShot base (category r) v
          | _, _ => base
          end) shots t)
  == tot_TOTAL t + sumQ (map (contribution B) shots).
Proof.
  revert t. induction shots as [|shot shots IH]; intros t.
  - cbn. ring.
  - cbn [fold_left map sumQ fold_right]. rewrite IH.
    fold (sumQ (map (contribution B) shots)). unfold contribution at 2.
    cbv zeta.
    destruct (isValid (calculateStrokesGained B shot));
      [destruct (sg (calculateStrokesGained B shot)) as [v|]|];
      try rewrite addShot_total; ring.
Qed.

Lemma round3_close (raw : Q) :
  raw - 0.0005 <= round3 raw /\ round3 raw <= raw + 0.0005.
Proof.
  unfold round3. destruct (Math_round_nearest (raw * 1000)) as [Hlo Hhi].
  set (n := inject_Z (Math_round (raw * 1000))) in *.
  unfold Qdiv. change (/ 1000) with 0.001. split; lra.
Qed.

(** The sum over a chained hole, before it is related to [sumTotals]. *)
Lemma chained_sum (B : Baseline) (shots : list Shot) :
  chained shots ->
  Forall (fun shot => isValid (calculateStrokesGained B shot) = true) shots ->
  exists first rest eStart,
    shots = first :: rest /\ expectedStart B first = Some eStart /\
    let n := inject_Z (Z.of_nat (length shots)) in
    let expected := eStart - sumQ (map strokesUsed shots) in
    expected - n * 0.0005 <= sumQ (map (contribution B) shots) /\
    sumQ (map (contribution B) shots) <= expected + n * 0.0005.
Proof.
  induction shots as [|s1 shots IH]; [intros []|].
  intros Hch Hval. inversion Hval as [|? ? Hv1 Hvrest]; subst.
  assert (Hc1 : exists eS eE,
            expectedStart B s1 = Some eS /\ expectedEnd B s1 = Some eE /\
            contribution B s1 = round3 (eS - eE - strokesUsed s1)).
  { unfold contribution. cbv zeta. revert Hv1. unfold calculateStrokesGained.
    destruct (expectedStart B s1) as [eS|], (expectedEnd B s1) as [eE|];
      cbn; intros Hv1; try discriminate Hv1.
    exists eS, eE. auto. }
  destruct Hc1 as (eS & eE & HS & HE & Hc).
  exists s1, shots, eS. split; [reflexivity|]. split; [exact HS|].
  cbv zeta. cbn [length map sumQ fold_right].
  fold (sumQ (map strokesUsed shots)). fold (sumQ (map (contribution B) shots)).
  rewrite Nat2Z.inj_succ. unfold Z.succ. rewrite inject_Z_plus.
  change (inject_Z 1) with 1. rewrite Hc.
  destruct (round3_close (eS - eE - strokesUsed s1)) as [Hlo Hhi].
  destruct shots as [|s2 rest].
  - cbn [chained] in Hch. unfold expectedEnd in HE. rewrite Hch in HE.
    injection HE as <-. cbn [length Z.of_nat map sumQ fold_right].
    change (inject_Z 0) with 0. split; lra.
  - cbn [chained] in Hch. destruct Hch as (Hh & Hlie & Hdist & Hch).
    destruct (IH Hch Hvrest) as (f & r & eS2 & Hfr & HS2 & Hlo2 & Hhi2).
    injection Hfr as <- <-.
    assert (HeE : eE = eS2).
    { unfold expectedEnd in HE. rewrite Hh in HE.
      unfold expectedStart in HS2. rewrite Hlie, Hdist in HE. congruence. }
    subst eE. cbv zeta in Hlo2, Hhi2. split; lra.
Qed.

(** X15: over the shots of one hole played in order (each shot starts
    where the one before ended, the last one is holed), all of them
    ratable, the TOTAL of [sumTotals] is the expected strokes at the start
    of the hole minus the strokes taken, up to the rounding of each shot:
    within 0.001 per shot. *)
Theorem hole_total_telescopes (B : Baseline) (shots : list Shot) :
  chained shots ->
  Forall (fun shot => isValid (calculateStrokesGained B shot) = true) shots ->
  exists first rest eStart,
    shots = first :: rest /\ expectedStart B first = Some eStart /\
    let n := inject_Z (Z.of_nat (length shots)) in
    let expected := eStart - sumQ (map strokesUsed shots) in
    expected - n * 0.001 <= tot_TOTAL (sumTotals B shots) /\
    tot_TOTAL (sumTotals B shots) <= expected + n * 0.001.
Proof.
  intros Hch Hval.
  destruct (chained_sum B shots Hch Hval)
    as (first & rest & eS & Hs & HS & Hlo & Hhi).
  exists first, rest, eS. split; [exact Hs|]. split; [exact HS|].
  cbv zeta in Hlo, Hhi |- *.
  assert (Ht : tot_TOTAL (sumTotals B shots)
               == sumQ (map (contribution B) shots)).
  { unfold sumTotals. rewrite sumTotals_total_from.
    cbn [zeroTotals tot_TOTAL]. ring. }
  assert (Hn : 0 <= inject_Z (Z.of_nat (length shots))).
  { change 0 with (inject_Z 0). rewrite <- Zle_Qle. lia. }
  rewrite Ht. split; lra.
Qed.

Lemma hole_total_telescopes_witness :
  exists first rest eStart,
    sampleHole = first :: rest /\
    expectedStart PGA_BASELINE first = Some eStart /\
    let n := inject_Z (Z.of_nat (length sampleHole)) in
    let expected := eStart - sumQ (map strokesUsed sampleHole) in
    expected - n * 0.001 <= tot_TOTAL (sumTotals PGA_BASELINE sampleHole) /\
    tot_TOTAL (sumTotals PGA_BASELINE sampleHole) <= expected + n * 0.001.
Proof.
  apply (hole_total_telescopes PGA_BASELINE sampleHole).
  - simpl. repeat split; reflexivity.
  - repeat constructor.
Defined.

(** * Round page *)

Lemma insertByShotNumber_perm (s : Shot) (l : list Shot) :
  Permutation (insertByShotNumber s l) (s :: l).
Proof.
  induction l as [|t l IH]; cbn [insertByShotNumber]; [reflexivity|].
  destruct (shotNumber s <=? shotNumber t)%Z; [reflexivity|].
  rewrite IH. apply perm_swap.
Qed.

Lemma sortByShotNumber_perm (l : list Shot) :
  Permutation (sortByShotNumber l) l.
Proof.
  induction l as [|s l IH]; [reflexivity|].
  cbn [sortByShotNumber fold_right]. fold (sortByShotNumber l).
  rewrite insertByShotNumber_perm, IH. reflexivity.
Qed.

Lemma holesOut_iff (s : Shot) :
  Lie_eqb (endLie s) GREEN && num_eqb (endDistance s) (Fin 0) = true
  <-> holesOut s.
Proof.
  unfold holesOut. rewrite andb_true_iff, Lie_eqb_eq.
  destruct (endDistance s) as [q| | |]; cbn [num_eqb is_zero];
    try (split; intros [? H]; [discriminate H|contradiction]).
  rewrite Qeq_bool_iff. reflexivity.
Qed.

(** The finished test on the sorted shots of a hole sees exactly the
    shots of the round played on that hole. *)
Lemma isHoleFinished_holeDone (roundShots : list Shot) (hole : Z) :
  isHoleFinished (getSortedShotsForHole roundShots hole) = true
  <-> holeDone roundShots hole.
Proof.
  unfold isHoleFinished, getSortedShotsForHole, holeDone.
  rewrite existsb_exists. split.
  - intros (s & Hin & Hs).
    apply (Permutation_in _ (sortByShotNumber_perm _)) in Hin.
    apply filter_In in Hin as [Hin Hh]. apply Z.eqb_eq in Hh.
    exists s. repeat split; try assumption; apply holesOut_iff, Hs.
  - intros (s & Hin & Hh & Hs). exists s. split; [|apply holesOut_iff, Hs].
    apply (Permutation_in _ (Permutation_sym (sortByShotNumber_perm _))).
    apply filter_In. split; [exact Hin|apply Z.eqb_eq, Hh].
Qed.

Lemma resumeFrom_spec (roundShots : list Shot) (target : Z) (fuel : nat)
  (hole : Z) :
  (1 <= hole)%Z -> (hole <= target + 1)%Z ->
  (target + 1 - hole <= Z.of_nat fuel)%Z ->
  (1 <= target)%Z ->
  let r := resumeFrom roundShots target hole fuel in
  (hole <= r \/ r = target)%Z /\ (1 <= r <= target)%Z /\
  (forall h, (hole <= h < r)%Z -> holeDone roundShots h) /\
  (holeDone roundShots r ->
   r = target /\ forall h, (hole <= h <= target)%Z -> holeDone roundShots h).
Proof.
  revert hole. induction fuel as [|fuel IH]; intros hole H1 H2 Hf Ht.
  - cbn [resumeFrom]. assert (hole = target + 1)%Z by lia. subst hole.
    repeat split; intros; lia.
  - cbn [resumeFrom]. destruct (hole <=? target)%Z eqn:Hle.
    + apply Z.leb_le in Hle. cbv zeta.
      destruct (length (getSortedShotsForHole roundShots hole) =? 0)%nat eqn:Hlen.
      * assert (Hnot : ~ holeDone roundShots hole).
        { intros Hd. apply isHoleFinished_holeDone in Hd.
          apply Nat.eqb_eq, length_zero_iff_nil in Hlen.
          rewrite Hlen in Hd. discriminate Hd. }
        repeat split; intros; try lia; contradiction.
      * destruct (isHoleFinished (getSortedShotsForHole roundShots hole)) eqn:Hfin;
          cbn [negb].
        -- apply isHoleFinished_holeDone in Hfin.
           destruct (IH (hole + 1)%Z) as (Hr & Hb & Hbefore & Hdone); try lia.
           cbv zeta in Hr, Hb, Hbefore, Hdone.
           set (r := resumeFrom roundShots target (hole + 1) fuel) in *.
           split; [lia|]. split; [lia|]. split.
           ++ intros h Hh. destruct (Z.eq_dec h hole) as [->|Hne];
                [exact Hfin|apply Hbefore; lia].
           ++ intros Hd. destruct (Hdone Hd) as [Hrt Hall].
              split; [exact Hrt|]. intros h Hh.
              destruct (Z.eq_dec h hole) as [->|Hne]; [exact Hfin|].
              apply Hall. lia.
        -- assert (Hnot : ~ holeDone roundShots hole).
           { intros Hd. apply isHoleFinished_holeDone in Hd. congruence. }
           repeat split; intros; try lia; contradiction.
    + apply Z.leb_gt in Hle. assert (hole = target + 1)%Z by lia. subst hole.
      repeat split; intros; lia.
Qed.

(** X16: for a round of at least one hole, [getResumeHole] returns a hole
    between 1 and the target; every hole before it has a shot that holes
    out; and the returned hole itself is holed out only when it is the
    last one and every hole of the round is holed out. *)
Theorem getResumeHole_first_unfinished (targetHoles : option Z)
  (roundShots : list Shot) :
  let target := match targetHoles with Some t => t | None => 18%Z end in
  (1 <= target)%Z ->
  let r := getResumeHole targetHoles roundShots in
  (1 <= r <= target)%Z /\
  (forall h, (1 <= h < r)%Z -> holeDone roundShots h) /\
  (holeDone roundShots r ->
   r = target /\ forall h, (1 <= h <= target)%Z -> holeDone roundShots h).
Proof.
  intros target Ht r.
  destruct (resumeFrom_spec roundShots target (Z.to_nat target) 1)
    as (_ & Hb & Hbefore & Hdone); try lia.
  fold (getResumeHole targetHoles roundShots) in Hb, Hbefore, Hdone.
  auto.
Qed.

Lemma getResumeHole_first_unfinished_witness :
  let r := getResumeHole (Some 9%Z) sampleHole in
  (1 <= r <= 9)%Z /\
  (forall h, (1 <= h < r)%Z -> holeDone sampleHole h) /\
  (holeDone sampleHole r ->
   r = 9%Z /\ forall h, (1 <= h <= 9)%Z -> holeDone sampleHole h).
Proof.
  apply (getResumeHole_first_unfinished (Some 9%Z) sampleHole). simpl. lia.
Defined.

(** X17: the test that refuses a further shot on a hole
    ([isHoleComplete]) and the test by which the page resumes
    ([isHoleFinished] on the sorted shots of the hole) agree on every
    round and hole, and hold exactly when a shot of that hole holes
    out. *)
Theorem isHoleComplete_agrees (roundShots : list Shot) (hole : Z) :
  isHoleComplete roundShots hole
  = isHoleFinished (getSortedShotsForHole roundShots hole) /\
  (isHoleComplete roundShots hole = true <-> holeDone roundShots hole).
Proof.
  assert (Hc : isHoleComplete roundShots hole = true <-> holeDone roundShots hole).
  { unfold isHoleComplete, holeDone. rewrite existsb_exists. split.
    - intros (s & Hin & Hs). apply filter_In in Hin as [Hin Hh].
      apply Z.eqb_eq in Hh. exists s. repeat split; try assumption;
        apply holesOut_iff, Hs.
    - intros (s & Hin & Hh & Hs). exists s. split; [|apply holesOut_iff, Hs].
      apply filter_In. split; [exact Hin|apply Z.eqb_eq, Hh]. }
  split; [|exact Hc].
  pose proof (isHoleFinished_holeDone roundShots hole) as Hf.
  destruct (isHoleComplete roundShots hole),
    (isHoleFinished (getSortedShotsForHole roundShots hole)); try reflexivity.
  - symmetry. apply Hf, Hc. reflexivity.
  - apply Hc, Hf. reflexivity.
Qed.

(** * Storage *)

Section StorageProofs.

Import RoundStorage.

Lemma readBackNumber_idem (x : number) :
  readBackNumber (readBackNumber x) = readBackNumber x.
Proof. destruct x; reflexivity. Qed.

Lemma readBackShot_idem (s : Shot) :
  readBackShot (readBackShot s) = readBackShot s.
Proof.
  unfold readBackShot. cbn [holeNumber shotNumber startLie startDistance
    endLie endDistance penaltyStrokes putts].
  rewrite !readBackNumber_idem. reflexivity.
Qed.

Lemma readBackRound_idem (r : Round) :
  readBackRound (readBackRound r) = readBackRound r.
Proof.
  unfold readBackRound. cbn [id createdAt shots]. rewrite map_map.
  f_equal. apply map_ext. intros s. apply readBackShot_idem.
Qed.

Lemma readBack_twice (l : list Round) :
  map readBackRound (map readBackRound l) = map readBackRound l.
Proof. rewrite map_map. apply map_ext. intros r. apply readBackRound_idem. Qed.

(** Rounds as [safeParse] returns them: reading them back changes
    nothing. *)
Lemma safeParse_clean (item : option (list Round)) :
  map readBackRound (safeParse item) = safeParse item.
Proof.
  destruct item as [data|]; [|reflexivity]. cbn [safeParse].
  apply readBack_twice.
Qed.

Lemma loadRounds_nowindow (st : Storage) :
  hasWindow st = false -> loadRounds st = ([], st).
Proof. intros H. unfold loadRounds. rewrite H. reflexivity. Qed.

Lemma loadRounds_settled (st : Storage) :
  hasWindow st = true -> migrationItem st = true ->
  loadRounds st = (safeParse (roundsItem st), st).
Proof.
  intros Hw Hm. unfold loadRounds, migrateGreenFeetIfNeeded.
  rewrite Hw, Hm. reflexivity.
Qed.

(** After a load in the browser the migration key is set and the item
    holds what the load returned, as JSON gives it back. *)
Lemma loadRounds_spec (st st1 : Storage) (rs : list Round) :
  hasWindow st = true -> loadRounds st = (rs, st1) ->
  hasWindow st1 = true /\ migrationItem st1 = true /\
  safeParse (roundsItem st1) = map readBackRound rs.
Proof.
  intros Hw. unfold loadRounds, migrateGreenFeetIfNeeded. rewrite Hw.
  cbn [negb]. destruct (migrationItem st) eqn:Hm.
  - intros [= <- <-]. rewrite safeParse_clean. auto.
  - destruct (length (safeParse (roundsItem st)) =? 0)%nat eqn:Hlen.
    + intros [= <- <-]. cbn [hasWindow migrationItem roundsItem].
      rewrite safeParse_clean. auto.
    + intros [= <- <-]. cbn [hasWindow migrationItem roundsItem safeParse].
      auto.
Qed.

(** Without a conversion the rounds a load returns are clean. *)
Lemma loadRounds_clean (st st1 : Storage) (rs : list Round) :
  hasWindow st = false \/ migrationItem st = true ->
  loadRounds st = (rs, st1) -> map readBackRound rs = rs.
Proof.
  intros Hs. destruct (hasWindow st) eqn:Hw.
  - destruct Hs as [Hs|Hm]; [discriminate Hs|].
    rewrite (loadRounds_settled st Hw Hm). intros [= <- <-].
    apply safeParse_clean.
  - rewrite (loadRounds_nowindow st Hw). intros [= <- <-]. reflexivity.
Qed.

Lemma loadRounds_after_persist (st1 : Storage) (l : list Round) :
  hasWindow st1 = true -> migrationItem st1 = true ->
  loadRounds (persistRounds l st1)
  = (map readBackRound l, persistRounds l st1).
Proof.
  intros Hw Hm. unfold persistRounds. rewrite Hw. cbn [negb].
  rewrite loadRounds_settled; [reflexivity|reflexivity|exact Hm].
Qed.

Lemma persistRounds_settled (st1 : Storage) (l : list Round) :
  hasWindow st1 = true -> migrationItem st1 = true ->
  hasWindow (persistRounds l st1) = true /\
  migrationItem (persistRounds l st1) = true.
Proof.
  intros Hw Hm. unfold persistRounds. rewrite Hw. cbn. auto.
Qed.

(** X18: whatever a first load returns (after the one-time conversion of
    green distances, if it ran), a second load returns these rounds as
    JSON gives them back (a converted distance that overflowed to an
    infinity reads 0) and leaves the store as it is; in the browser the
    migration key is set after the first load, so the conversion never
    runs twice.  When no conversion is due the two loads return the same
    rounds. *)
Theorem loadRounds_stable (st st1 : Storage) (rs : list Round) :
  loadRounds st = (rs, st1) ->
  loadRounds st1 = (map readBackRound rs, st1) /\
  (hasWindow st = true -> migrationItem st1 = true) /\
  (hasWindow st = false \/ migrationItem st = true ->
   loadRounds st1 = (rs, st1)).
Proof.
  intros HL.
  assert (H1 : loadRounds st1 = (map readBackRound rs, st1)).
  { destruct (hasWindow st) eqn:Hw.
    - destruct (loadRounds_spec st st1 rs Hw HL) as (Hw1 & Hm1 & Hrs).
      rewrite loadRounds_settled by assumption. rewrite Hrs. reflexivity.
    - rewrite (loadRounds_nowindow st Hw) in HL. injection HL as <- <-.
      apply loadRounds_nowindow, Hw. }
  split; [exact H1|]. split.
  - intros Hw. apply (loadRounds_spec st st1 rs Hw HL).
  - intros Hs. rewrite H1, (loadRounds_clean st st1 rs Hs HL). reflexivity.
Qed.

Lemma loadRounds_stable_witness :
  let st := mkStorage true (Some [legacyRound; hugeLegacyRound]) false in
  let rs := fst (loadRounds st) in
  let st1 := snd (loadRounds st) in
  loadRounds st1 = (map readBackRound rs, st1) /\
  (hasWindow st = true -> migrationItem st1 = true) /\
  (hasWindow st = false \/ migrationItem st = true ->
   loadRounds st1 = (rs, st1)).
Proof.
  intros st rs st1. apply (loadRounds_stable st st1 rs). reflexivity.
Defined.

(** The conversion can overflow: the first load of a store that was
    never migrated returns an infinite distance, the second one 0. *)
Lemma loadRounds_overflow :
  let st := mkStorage true (Some [hugeLegacyRound]) false in
  map (fun r => map startDistance (shots r)) (fst (loadRounds st))
  = [[PosInf]] /\
  map (fun r => map startDistance (shots r))
    (fst (loadRounds (snd (loadRounds st))))
  = [[Fin 0]].
Proof. split; vm_compute; reflexivity. Qed.

(** ** Lists of rounds *)

Lemma find_readBack (wanted : nat) (l : list Round) :
  find (fun r => (id r =? wanted)%nat) (map readBackRound l)
  = option_map readBackRound (find (fun r => (id r =? wanted)%nat) l).
Proof.
  induction l as [|r l IH]; [reflexivity|]. cbn [map find].
  change (id (readBackRound r)) with (id r).
  destruct (id r =? wanted)%nat; [reflexivity|exact IH].
Qed.

Lemma find_clean (wanted : nat) (l : list Round) :
  map readBackRound l = l ->
  option_map readBackRound (find (fun r => (id r =? wanted)%nat) l)
  = find (fun r => (id r =? wanted)%nat) l.
Proof. intros H. rewrite <- find_readBack, H. reflexivity. Qed.

(** The array that [saveRound] writes. *)
Lemma find_saved (r : Round) (rounds : list Round) :
  find (fun x => (id x =? id r)%nat)
    match findIndex (id r) rounds with
    | None => r :: rounds
    | Some idx => replaceAt idx r rounds
    end
  = Some r.
Proof.
  induction rounds as [|x rounds IH].
  - cbn. rewrite Nat.eqb_refl. reflexivity.
  - cbn [findIndex]. destruct (id x =? id r)%nat eqn:E.
    + cbn. rewrite Nat.eqb_refl. reflexivity.
    + destruct (findIndex (id r) rounds) as [idx|]; cbn [option_map].
      * cbn [replaceAt find]. rewrite E. exact IH.
      * cbn [find]. rewrite Nat.eqb_refl. reflexivity.
Qed.

Lemma find_other_saved (r : Round) (rounds : list Round) (other : nat) :
  other <> id r ->
  find (fun x => (id x =? other)%nat)
    match findIndex (id r) rounds with
    | None => r :: rounds
    | Some idx => replaceAt idx r rounds
    end
  = find (fun x => (id x =? other)%nat) rounds.
Proof.
  intros Hne.
  assert (Hr : (id r =? other)%nat = false) by (apply Nat.eqb_neq; congruence).
  induction rounds as [|x rounds IH].
  - cbn. rewrite Hr. reflexivity.
  - cbn [findIndex]. destruct (id x =? id r)%nat eqn:E.
    + cbn [replaceAt find]. rewrite Hr.
      apply Nat.eqb_eq in E. rewrite E, Hr. reflexivity.
    + destruct (findIndex (id r) rounds) as [idx|]; cbn [option_map].
      * cbn [replaceAt find]. rewrite IH. reflexivity.
      * cbn [find] in IH |- *. rewrite Hr in IH |- *.
        destruct (id x =? other)%nat; [reflexivity|exact IH].
Qed.

(** X19: in the browser, a round that was saved is the round found under
    its id afterwards, as JSON gives it back (a non-finite distance reads
    0), whether the id was new or already stored. *)
Theorem saveRound_then_getRound (r : Round) (st : Storage) :
  hasWindow st = true ->
  fst (getRound (id r) (saveRound r st)) = Some (readBackRound r).
Proof.
  intros Hw. unfold saveRound, getRound.
  destruct (loadRounds st) as [rounds st1] eqn:HL.
  destruct (loadRounds_spec st st1 rounds Hw HL) as (Hw1 & Hm1 & _).
  pose proof (find_saved r rounds) as Hf.
  destruct (findIndex (id r) rounds) as [idx|];
    rewrite (loadRounds_after_persist st1 _ Hw1 Hm1); cbn [fst];
    rewrite find_readBack, Hf; reflexivity.
Qed.

Lemma saveRound_then_getRound_witness :
  fst (getRound (id legacyRound)
         (saveRound legacyRound (mkStorage true None false)))
  = Some (readBackRound legacyRound).
Proof.
  apply (saveRound_then_getRound legacyRound (mkStorage true None false)).
  reflexivity.
Defined.

(** X20: after [saveRound] the round found under any other id is the
    one found before, as JSON gives it back (it differs only where the
    one-time conversion had just overflowed a distance to an infinity,
    which reads 0); when no conversion is due it is the same round. *)
Theorem saveRound_keeps_others (r : Round) (st : Storage) (other : nat) :
  other <> id r ->
  fst (getRound other (saveRound r st))
  = option_map readBackRound (fst (getRound other st)) /\
  (hasWindow st = false \/ migrationItem st = true ->
   fst (getRound other (saveRound r st)) = fst (getRound other st)).
Proof.
  intros Hne.
  assert (H1 : fst (getRound other (saveRound r st))
               = option_map readBackRound (fst (getRound other st))).
  { unfold saveRound, getRound.
    destruct (loadRounds st) as [rounds st1] eqn:HL. cbn [fst].
    pose proof (find_other_saved r rounds other Hne) as Hf.
    destruct (hasWindow st) eqn:Hw.
    - destruct (loadRounds_spec st st1 rounds Hw HL) as (Hw1 & Hm1 & _).
      destruct (findIndex (id r) rounds) as [idx|];
        rewrite (loadRounds_after_persist st1 _ Hw1 Hm1); cbn [fst];
        rewrite find_readBack, Hf; reflexivity.
    - rewrite (loadRounds_nowindow st Hw) in HL. injection HL as <- <-.
      unfold persistRounds. rewrite Hw. cbn [negb].
      destruct (findIndex (id r) []); rewrite (loadRounds_nowindow st Hw);
        reflexivity. }
  split; [exact H1|].
  intros Hs. rewrite H1. unfold getRound.
  destruct (loadRounds st) as [rounds st1] eqn:HL. cbn [fst].
  apply find_clean, (loadRounds_clean st st1 rounds Hs HL).
Qed.

Lemma saveRound_keeps_others_witness :
  let st := mkStorage true (Some [mkRound 3 50 []; hugeLegacyRound]) false in
  fst (getRound 8 (saveRound legacyRound st))
  = option_map readBackRound (fst (getRound 8 st)) /\
  (hasWindow st = false \/ migrationItem st = true ->
   fst (getRound 8 (saveRound legacyRound st)) = fst (getRound 8 st)).
Proof.
  apply (saveRound_keeps_others legacyRound
           (mkStorage true (Some [mkRound 3 50 []; hugeLegacyRound]) false) 8).
  simpl. lia.
Defined.

Lemma find_deleted (wanted : nat) (rounds : list Round) :
  find (fun r => (id r =? wanted)%nat)
    (filter (fun r => negb (id r =? wanted)%nat) rounds) = None.
Proof.
  induction rounds as [|x rounds IH]; [reflexivity|]. cbn [filter].
  destruct (id x =? wanted)%nat eqn:E; cbn [negb]; [exact IH|].
  cbn [find]. rewrite E. exact IH.
Qed.

Lemma find_other_deleted (wanted other : nat) (rounds : list Round) :
  other <> wanted ->
  find (fun r => (id r =? other)%nat)
    (filter (fun r => negb (id r =? wanted)%nat) rounds)
  = find (fun r => (id r =? other)%nat) rounds.
Proof.
  intros Hne. induction rounds as [|x rounds IH]; [reflexivity|].
  cbn [filter find]. destruct (id x =? wanted)%nat eqn:E; cbn [negb].
  - apply Nat.eqb_eq in E.
    assert (Ho : (id x =? other)%nat = false)
      by (apply Nat.eqb_neq; congruence).
    rewrite Ho. exact IH.
  - cbn [find]. destruct (id x =? other)%nat; [reflexivity|exact IH].
Qed.

(** X21: after [deleteRound] no round is found under the deleted id,
    with or without a browser, and the round found under any other id is
    the one found before, as JSON gives it back; when no conversion is
    due it is the same round. *)
Theorem deleteRound_removes (wanted other : nat) (st : Storage) :
  other <> wanted ->
  fst (getRound wanted (deleteRound wanted st)) = None /\
  fst (getRound other (deleteRound wanted st))
  = option_map readBackRound (fst (getRound other st)) /\
  (hasWindow st = false \/ migrationItem st = true ->
   fst (getRound other (deleteRound wanted st)) = fst (getRound other st)).
Proof.
  intros Hne.
  assert (H : fst (getRound wanted (deleteRound wanted st)) = None /\
              fst (getRound other (deleteRound wanted st))
              = option_map readBackRound (fst (getRound other st))).
  { unfold deleteRound, getRound.
    destruct (loadRounds st) as [rounds st1] eqn:HL. cbn [fst].
    destruct (hasWindow st) eqn:Hw.
    - destruct (loadRounds_spec st st1 rounds Hw HL) as (Hw1 & Hm1 & _).
      rewrite (loadRounds_after_persist st1 _ Hw1 Hm1). cbn [fst]. split.
      + rewrite find_readBack, find_deleted. reflexivity.
      + rewrite find_readBack, find_other_deleted by exact Hne. reflexivity.
    - rewrite (loadRounds_nowindow st Hw) in HL. injection HL as <- <-.
      unfold persistRounds. rewrite Hw. cbn [negb filter].
      rewrite (loadRounds_nowindow st Hw). cbn. auto. }
  destruct H as [H1 H2]. split; [exact H1|]. split; [exact H2|].
  intros Hs. rewrite H2. unfold getRound.
  destruct (loadRounds st) as [rounds st1] eqn:HL. cbn [fst].
  apply find_clean, (loadRounds_clean st st1 rounds Hs HL).
Qed.

Lemma deleteRound_removes_witness :
  let st := mkStorage true (Some [hugeLegacyRound; legacyRound]) false in
  fst (getRound 7 (deleteRound 7 st)) = None /\
  fst (getRound 8 (deleteRound 7 st))
  = option_map readBackRound (fst (getRound 8 st)) /\
  (hasWindow st = false \/ migrationItem st = true ->
   fst (getRound 8 (deleteRound 7 st)) = fst (getRound 8 st)).
Proof.
  apply (deleteRound_removes 7 8
           (mkStorage true (Some [hugeLegacyRound; legacyRound]) false)).
  lia.
Defined.

(** ** Adding and undoing a shot *)

Lemma findIndex_nth (wanted : nat) (l : list Round) (idx : nat) :
  findIndex wanted l = Some idx ->
  exists r, nth_error l idx = Some r /\ id r = wanted.
Proof.
  revert idx. induction l as [|x l IH]; intros idx; [discriminate|].
  cbn [findIndex]. destruct (id x =? wanted)%nat eqn:E.
  - intros [= <-]. exists x. split; [reflexivity|apply Nat.eqb_eq, E].
  - destruct (findIndex wanted l) as [i|]; [|discriminate].
    intros [= <-]. apply (IH i). reflexivity.
Qed.

Lemma findIndex_replaceAt (wanted : nat) (l : list Round) (idx : nat)
  (r : Round) :
  findIndex wanted l = Some idx -> id r = wanted ->
  findIndex wanted (replaceAt idx r l) = Some idx.
Proof.
  revert idx. induction l as [|x l IH]; intros idx; [discriminate|].
  cbn [findIndex]. destruct (id x =? wanted)%nat eqn:E.
  - intros [= <-] Hr. cbn [replaceAt findIndex].
    rewrite Hr, Nat.eqb_refl. reflexivity.
  - destruct (findIndex wanted l) as [i|] eqn:Hi; [|discriminate].
    intros [= <-] Hr. cbn [replaceAt findIndex]. rewrite E.
    rewrite (IH i eq_refl Hr). reflexivity.
Qed.

Lemma nth_error_replaceAt (l : list Round) (idx : nat) (r r' : Round) :
  nth_error l idx = Some r -> nth_error (replaceAt idx r' l) idx = Some r'.
Proof.
  revert idx. induction l as [|x l IH]; intros [|idx]; try discriminate.
  - reflexivity.
  - cbn [nth_error replaceAt]. apply IH.
Qed.

Lemma replaceAt_twice (l : list Round) (idx : nat) (a b : Round) :
  replaceAt idx a (replaceAt idx b l) = replaceAt idx a l.
Proof.
  revert idx. induction l as [|x l IH]; intros [|idx]; try reflexivity.
  cbn [replaceAt]. rewrite IH. reflexivity.
Qed.

Lemma replaceAt_same (l : list Round) (idx : nat) (r : Round) :
  nth_error l idx = Some r -> replaceAt idx r l = l.
Proof.
  revert idx. induction l as [|x l IH]; intros [|idx]; try discriminate.
  - intros [= ->]. reflexivity.
  - cbn [nth_error replaceAt]. intros H. rewrite (IH idx H). reflexivity.
Qed.

Lemma map_replaceAt (f : Round -> Round) (l : list Round) (idx : nat)
  (r : Round) :
  map f (replaceAt idx r l) = replaceAt idx (f r) (map f l).
Proof.
  revert idx. induction l as [|x l IH]; intros [|idx]; try reflexivity.
  cbn [replaceAt map]. rewrite IH. reflexivity.
Qed.

Lemma removelast_snoc {A : Type} (l : list A) (a : A) :
  removelast (l ++ [a]) = l.
Proof. rewrite removelast_app by discriminate. cbn. apply app_nil_r. Qed.

Lemma findIndex_readBack (wanted : nat) (l : list Round) :
  findIndex wanted (map readBackRound l) = findIndex wanted l.
Proof.
  induction l as [|x l IH]; [reflexivity|]. cbn [map findIndex].
  change (id (readBackRound x)) with (id x). rewrite IH. reflexivity.
Qed.

(** X22: [addShot] followed by [undoLastShot] on the same round leaves
    the stored rounds as a load found them before, as JSON gives them
    back, whether the round exists or not, with or without a browser;
    when no conversion is due they are the same rounds. *)
Theorem addShot_then_undoLastShot (roundId : nat) (shot : Shot)
  (st : Storage) :
  fst (loadRounds (snd (undoLastShot roundId (snd (addShot roundId shot st)))))
  = map readBackRound (fst (loadRounds st)) /\
  (hasWindow st = false \/ migrationItem st = true ->
   fst (loadRounds (snd (undoLastShot roundId (snd (addShot roundId shot st)))))
   = fst (loadRounds st)).
Proof.
  assert (H1 : fst (loadRounds
                      (snd (undoLastShot roundId (snd (addShot roundId shot st)))))
               = map readBackRound (fst (loadRounds st))).
  { destruct (loadRounds st) as [rounds st1] eqn:HL. cbn [fst].
    pose proof (loadRounds_stable st st1 rounds HL) as [Hstable _].
    unfold addShot. rewrite HL.
    destruct (hasWindow st) eqn:Hw.
    2:{ rewrite (loadRounds_nowindow st Hw) in HL. injection HL as <- <-.
        cbn [findIndex snd]. unfold undoLastShot.
        rewrite (loadRounds_nowindow st Hw). cbn [findIndex snd].
        rewrite (loadRounds_nowindow st Hw). reflexivity. }
    destruct (loadRounds_spec st st1 rounds Hw HL) as (Hw1 & Hm1 & _).
    destruct (findIndex roundId rounds) as [idx|] eqn:Hidx.
    2:{ cbn [snd]. unfold undoLastShot.
        rewrite Hstable, findIndex_readBack, Hidx. cbn [snd].
        rewrite Hstable. reflexivity. }
    destruct (findIndex_nth _ _ _ Hidx) as (r0 & Hn0 & Hid0). rewrite Hn0.
    cbn [snd].
    set (upd := mkRound (id r0) (createdAt r0) (shots r0 ++ [shot])).
    unfold undoLastShot.
    rewrite (loadRounds_after_persist st1 _ Hw1 Hm1).
    rewrite map_replaceAt.
    assert (Hidx' : findIndex roundId (map readBackRound rounds) = Some idx)
      by (rewrite findIndex_readBack; exact Hidx).
    assert (Hn0' : nth_error (map readBackRound rounds) idx
                   = Some (readBackRound r0))
      by (rewrite nth_error_map, Hn0; reflexivity).
    rewrite (findIndex_replaceAt roundId _ idx (readBackRound upd) Hidx')
      by exact Hid0.
    rewrite (nth_error_replaceAt _ idx _ (readBackRound upd) Hn0').
    assert (Hshots : shots (readBackRound upd)
                     = map readBackShot (shots r0) ++ [readBackShot shot]).
    { unfold upd, readBackRound. cbn [shots]. rewrite map_app. reflexivity. }
    rewrite Hshots.
    assert (Hlen : (length (map readBackShot (shots r0) ++ [readBackShot shot])
                    =? 0)%nat = false).
    { apply Nat.eqb_neq. rewrite length_app. cbn [length]. lia. }
    rewrite Hlen, removelast_snoc. cbn [snd].
    change (mkRound (id (readBackRound upd)) (createdAt (readBackRound upd))
              (map readBackShot (shots r0)))
      with (readBackRound r0).
    rewrite replaceAt_twice, (replaceAt_same _ idx _ Hn0').
    destruct (persistRounds_settled st1 (replaceAt idx upd rounds) Hw1 Hm1)
      as [Hw2 Hm2].
    rewrite (loadRounds_after_persist _ _ Hw2 Hm2). cbn [fst].
    apply readBack_twice. }
  split; [exact H1|].
  intros Hs. rewrite H1.
  destruct (loadRounds st) as [rounds st1] eqn:HL. cbn [fst].
  apply (loadRounds_clean st st1 rounds Hs HL).
Qed.

(** ** Ids of the stored rounds *)

Lemma findIndex_None (wanted : nat) (l : list Round) :
  findIndex wanted l = None <-> ~ In wanted (map id l).
Proof.
  induction l as [|x l IH]; cbn [findIndex map In]; [tauto|].
  destruct (id x =? wanted)%nat eqn:E.
  - apply Nat.eqb_eq in E. split; [discriminate|]. intros H. exfalso. auto.
  - apply Nat.eqb_neq in E.
    destruct (findIndex wanted l) as [i|]; cbn [option_map].
    + split; [discriminate|]. intros H. exfalso. apply H. right.
      destruct (in_dec Nat.eq_dec wanted (map id l)) as [Hin|Hin];
        [exact Hin|]. apply IH in Hin. discriminate Hin.
    + split; [|reflexivity]. intros _ [H|H]; [congruence|].
      apply (proj1 IH eq_refl H).
Qed.

Lemma ids_replaceAt (l : list Round) (idx : nat) (r r0 : Round) :
  nth_error l idx = Some r0 -> id r0 = id r ->
  map id (replaceAt idx r l) = map id l.
Proof.
  revert idx. induction l as [|x l IH]; intros [|idx]; try discriminate.
  - intros [= ->] Hid. cbn. rewrite Hid. reflexivity.
  - cbn [nth_error replaceAt map]. intros Hn Hid.
    rewrite (IH idx Hn Hid). reflexivity.
Qed.

Lemma ids_readBack (l : list Round) :
  map id (map readBackRound l) = map id l.
Proof. rewrite map_map. reflexivity. Qed.

(** X23: in the browser, [saveRound] replaces a round in place when its
    id is already stored (the list of ids is unchanged) and puts it in
    front otherwise; ids that were pairwise distinct stay so. *)
Theorem saveRound_ids (r : Round) (st : Storage) :
  hasWindow st = true ->
  let before := map id (fst (loadRounds st)) in
  let after := map id (fst (loadRounds (saveRound r st))) in
  (In (id r) before -> after = before) /\
  (~ In (id r) before -> after = id r :: before) /\
  (NoDup before -> NoDup after).
Proof.
  intros Hw before after. unfold before, after, saveRound.
  destruct (loadRounds st) as [rounds st1] eqn:HL. cbn [fst].
  destruct (loadRounds_spec st st1 rounds Hw HL) as (Hw1 & Hm1 & _).
  destruct (findIndex (id r) rounds) as [idx|] eqn:Hidx.
  - destruct (findIndex_nth _ _ _ Hidx) as (r0 & Hn0 & Hid0).
    rewrite (loadRounds_after_persist st1 _ Hw1 Hm1). cbn [fst].
    rewrite ids_readBack, (ids_replaceAt rounds idx r r0 Hn0 Hid0).
    repeat split; auto.
    intros Hnot. exfalso. apply Hnot.
    rewrite <- Hid0. apply in_map. apply (nth_error_In _ _ Hn0).
  - rewrite (loadRounds_after_persist st1 _ Hw1 Hm1). cbn [fst].
    rewrite ids_readBack. cbn [map].
    apply findIndex_None in Hidx.
    repeat split; auto.
    + intros Hin. contradiction.
    + intros Hnd. constructor; assumption.
Qed.

Lemma saveRound_ids_witness :
  let st := mkStorage true (Some [mkRound 3 50 []; legacyRound]) true in
  let before := map id (fst (loadRounds st)) in
  let after := map id (fst (loadRounds (saveRound legacyRound st))) in
  (In (id legacyRound) before -> after = before) /\
  (~ In (id legacyRound) before -> after = id legacyRound :: before) /\
  (NoDup before -> NoDup after).
Proof.
  apply (saveRound_ids legacyRound
           (mkStorage true (Some [mkRound 3 50 []; legacyRound]) true)).
  reflexivity.
Defined.

(** X24: [updateRound] never adds or removes a round.  When the id is
    stored, the round found under it afterwards is the update (as JSON
    gives it back); when it is not, nothing is found under it, as
    before. *)
Theorem updateRound_in_place (updated : Round) (st : Storage) :
  hasWindow st = true ->
  let before := fst (loadRounds st) in
  let st' := updateRound updated st in
  map id (fst (loadRounds st')) = map id before /\
  (In (id updated) (map id before) ->
   fst (getRound (id updated) st') = Some (readBackRound updated)) /\
  (~ In (id updated) (map id before) ->
   fst (getRound (id updated) st') = None).
Proof.
  intros Hw before st'. unfold before, st', updateRound, getRound.
  destruct (loadRounds st) as [rounds st1] eqn:HL. cbn [fst].
  destruct (loadRounds_spec st st1 rounds Hw HL) as (Hw1 & Hm1 & _).
  pose proof (loadRounds_stable st st1 rounds HL) as [Hstable _].
  pose proof (find_saved updated rounds) as Hf.
  destruct (findIndex (id updated) rounds) as [idx|] eqn:Hidx.
  - destruct (findIndex_nth _ _ _ Hidx) as (r0 & Hn0 & Hid0).
    rewrite (loadRounds_after_persist st1 _ Hw1 Hm1). cbn [fst].
    rewrite ids_readBack, (ids_replaceAt rounds idx updated r0 Hn0 Hid0).
    split; [reflexivity|]. split.
    + intros _. rewrite find_readBack, Hf. reflexivity.
    + intros Hnot. exfalso. apply Hnot.
      rewrite <- Hid0. apply in_map. apply (nth_error_In _ _ Hn0).
  - rewrite Hstable. cbn [fst]. split; [apply ids_readBack|].
    apply findIndex_None in Hidx. split; [intros Hin; contradiction|].
    intros _. rewrite find_readBack.
    destruct (find (fun r => (id r =? id updated)%nat) rounds) as [x|] eqn:Hx;
      [|reflexivity].
    apply find_some in Hx as [Hin Hx]. apply Nat.eqb_eq in Hx.
    exfalso. apply Hidx. rewrite <- Hx. apply in_map, Hin.
Qed.

Lemma updateRound_in_place_witness :
  let st := mkStorage true (Some [mkRound 3 50 []; legacyRound]) true in
  let updated := mkRound 3 60 [teeShot101] in
  let before := fst (loadRounds st) in
  let st' := updateRound updated st in
  map id (fst (loadRounds st')) = map id before /\
  (In (id updated) (map id before) ->
   fst (getRound (id updated) st') = Some (readBackRound updated)) /\
  (~ In (id updated) (map id before) ->
   fst (getRound (id updated) st') = None).
Proof.
  apply (updateRound_in_place (mkRound 3 60 [teeShot101])
           (mkStorage true (Some [mkRound 3 50 []; legacyRound]) true)).
  reflexivity.
Defined.

End StorageProofs.
